(** * Hockeypuck OpenPGP entity model: a shallow embedding

    The Go package [openpgp] represents a public key as a tree
    (Pubkey, Signature, UserId, UserAttribute, Subkey).  This file embeds
    the entity structs, their accessors, the traversal and the
    self-signature resolvers, and states the properties the design
    document gives for them.

    Conventions:
    - a Go [string] is a [string] of bytes ([ascii]), [len] is
      [String.length];
    - a Go [[]byte] is a [list Byte.byte];
    - Go [int], [time.Time] (as Unix seconds) and the fixed-width
      unsigned integers are [Z]; a narrowing conversion writes its mask;
    - a Go result [(T, error)] is [error + T]; a run-time panic is the
      [None] of an enclosing [option];
    - a method that assigns to its receiver returns the new receiver. *)

From Stdlib Require Import ZArith Ascii String List Lia.
From stdpp Require Import base decidable option list strings gmap.

Set Warnings "-register-all,-clear-no-such-hyp".

Local Open Scope Z_scope.

(** ** Errors *)

(** The three packet-type error values the source names (their
    declarations are outside the file), the error built inline by
    [setPacketV4], the merge precondition failure of the design
    document, and errors coming out of the packet library. *)
Inductive error : Type :=
  | ErrInvalidPacketType
  | InvalidPacketErr
  | InvalidPacketType
  | ErrMissingIssuerKeyId      (* errors.New("Signature missing issuer key ID") *)
  | ErrFingerprintMismatch
  | LibError (msg : string).

Definition is_packet_type_error (e : error) : bool :=
  match e with
  | ErrInvalidPacketType | InvalidPacketErr | InvalidPacketType => true
  | _ => false
  end.

(** ** Identity utilities *)

(** Modelled from the spec: [Reverse] is called throughout the source
    but declared elsewhere.  Section 4.2: "reverse(s): byte/char-order
    flip". *)
Definition Reverse (s : string) : string :=
  string_of_list_ascii (rev (list_ascii_of_string s)).

(** Go's [s[:n]]: the first [n] bytes, a panic when [n > len(s)]. *)
Definition slice_to (n : nat) (s : string) : option string :=
  if decide (n ≤ String.length s)%nat then Some (substring 0 n s) else None.

(** The last [n] bytes of [s] (all of [s] when it is shorter). *)
Definition last_chars (n : nat) (s : string) : string :=
  substring (String.length s - n) n s.

(** ** The packet library

    [code.google.com/p/go.crypto/openpgp/packet] is an import.  The
    structs are given with the fields the source reads; what the
    library computes is the interface [PacketLib]. *)

Record packet_PublicKey : Type := mkPublicKey {
  pkt_CreationTime : Z;
  pkt_PubKeyAlgo : Z;            (* uint8 *)
  pkt_IsSubkey : bool;
  pkt_KeyMaterial : list Byte.byte
}.

Record packet_Signature : Type := mkPacketSignature {
  pkt_SigType : Z;               (* uint8 *)
  pkt_SigCreationTime : Z;
  pkt_IssuerKeyId : option Z;    (* *uint64 *)
  pkt_SigLifetimeSecs : option Z;(* *uint32 *)
  pkt_SigBody : list Byte.byte
}.

Record packet_UserId : Type := mkPacketUserId {
  pkt_Id : string
}.

Record packet_OpaquePacket : Type := mkOpaquePacket {
  op_Tag : Z;                    (* uint8 *)
  op_Contents : list Byte.byte
}.

Record packet_OpaqueSubpacket : Type := mkOpaqueSubpacket {
  sp_SubType : Z;                (* uint8 *)
  sp_Contents : list Byte.byte
}.

(** [packet.Packet], the interface, as the sum of the implementations
    the source asserts on. *)
Inductive packet_Packet : Type :=
  | P_PublicKey (pk : packet_PublicKey)
  | P_Signature (s : packet_Signature)
  | P_UserId (u : packet_UserId)
  | P_Opaque (op : packet_OpaquePacket).

Class PacketLib : Type := {
  PublicKey_Serialize : packet_PublicKey → error + list Byte.byte;
  PublicKey_BitLength : packet_PublicKey → error + Z;
  Signature_Serialize : packet_Signature → error + list Byte.byte;
  UserId_Serialize : packet_UserId → error + list Byte.byte;
  OpaquePacket_Serialize : packet_OpaquePacket → error + list Byte.byte;
  (* packet.Read *)
  packet_Read : list Byte.byte → error + packet_Packet;
  (* packet.NewOpaqueReader(buf).Next() *)
  OpaqueReader_Next : list Byte.byte → error + packet_OpaquePacket;
  (* packet.OpaqueSubpackets *)
  packet_OpaqueSubpackets : list Byte.byte → error + list packet_OpaqueSubpacket;
  (* helpers of the package declared outside the file *)
  Fingerprint : packet_PublicKey → string;
  CleanUtf8 : string → string
}.

(** What [packet.Packet.Serialize] is for each implementation. *)
Definition Packet_Serialize `{PacketLib} (p : packet_Packet) : error + list Byte.byte :=
  match p with
  | P_PublicKey pk => PublicKey_Serialize pk
  | P_Signature s => Signature_Serialize s
  | P_UserId u => UserId_Serialize u
  | P_Opaque op => OpaquePacket_Serialize op
  end.

(** ** Entities *)

Inductive Signature : Type := mkSignature {
  sig_ScopedDigest : string;
  sig_Creation : Z;
  sig_Expiration : Z;
  sig_State : Z;
  sig_Packet : list Byte.byte;
  sig_SigType : Z;
  sig_RIssuerKeyId : string;
  sig_RIssuerFingerprint : string;
  sig_RevsigDigest : string;
  sig_Revsig : option Signature
}.

Record UserId : Type := mkUserId {
  uid_ScopedDigest : string;
  uid_Creation : Z;
  uid_Expiration : Z;
  uid_State : Z;
  uid_Packet : list Byte.byte;
  uid_PubkeyRFP : string;
  uid_Keywords : string;
  uid_SelfSignature : option Signature;
  uid_Signatures : list Signature
}.

Record UserAttribute : Type := mkUserAttribute {
  uat_ScopedDigest : string;
  uat_Creation : Z;
  uat_Expiration : Z;
  uat_State : Z;
  uat_Packet : list Byte.byte;
  uat_PubkeyRFP : string;
  uat_SelfSignature : option Signature;
  uat_Signatures : list Signature
}.

Record Subkey : Type := mkSubkey {
  sub_RFingerprint : string;
  sub_Creation : Z;
  sub_Expiration : Z;
  sub_State : Z;
  sub_Packet : list Byte.byte;
  sub_PubkeyRFP : string;
  sub_RevsigDigest : string;
  sub_Algorithm : Z;
  sub_BitLen : Z;
  sub_Signatures : list Signature
}.

Record Pubkey : Type := mkPubkey {
  pk_RFingerprint : string;
  pk_Creation : Z;
  pk_Expiration : Z;
  pk_State : Z;
  pk_Packet : list Byte.byte;
  pk_Ctime : Z;
  pk_Mtime : Z;
  pk_Md5 : string;
  pk_Sha256 : string;
  pk_RevsigDigest : string;
  pk_Algorithm : Z;
  pk_BitLen : Z;
  pk_Signatures : list Signature;
  pk_Subkeys : list Subkey;
  pk_UserIds : list UserId;
  pk_UserAttributes : list UserAttribute;
  pk_Revsig : option Signature
}.

(** [PacketRecord], the interface, as the sum of its implementations. *)
Inductive PacketRecord : Type :=
  | PR_Pubkey (pubkey : Pubkey)
  | PR_Signature (sig : Signature)
  | PR_UserId (uid : UserId)
  | PR_UserAttribute (uat : UserAttribute)
  | PR_Subkey (subkey : Subkey).

(** ** Views on the reversed identity fields *)

Definition Pubkey_Fingerprint (pubkey : Pubkey) : string :=
  Reverse (pk_RFingerprint pubkey).

Definition Pubkey_KeyId (pubkey : Pubkey) : option string :=
  Reverse <$> slice_to 16 (pk_RFingerprint pubkey).

Definition Pubkey_ShortId (pubkey : Pubkey) : option string :=
  Reverse <$> slice_to 8 (pk_RFingerprint pubkey).

Definition Subkey_Fingerprint (subkey : Subkey) : string :=
  Reverse (sub_RFingerprint subkey).

Definition Subkey_KeyId (subkey : Subkey) : option string :=
  Reverse <$> slice_to 16 (sub_RFingerprint subkey).

Definition Subkey_ShortId (subkey : Subkey) : option string :=
  Reverse <$> slice_to 8 (sub_RFingerprint subkey).

Definition Signature_IssuerKeyId (sig : Signature) : string :=
  Reverse (sig_RIssuerKeyId sig).

Definition Signature_IssuerFingerprint (sig : Signature) : string :=
  Reverse (sig_RIssuerFingerprint sig).

(** ** Pubkey: packet accessors *)

(** The type assertion on the result of [packet.Read] is the one-result
    form: it panics on a nil interface and on any other packet type.
    [packet_Read] gives either a packet or an error; a result of the
    library that carries a packet together with an error has no
    counterpart here, and nothing below is about that case. *)
Definition assert_PublicKey (r : error + packet_Packet) : option (error + packet_PublicKey) :=
  match r with
  | inr (P_PublicKey pk) => Some (inr pk)
  | _ => None
  end.

Definition assert_UserId (r : error + packet_Packet) : option (error + packet_UserId) :=
  match r with
  | inr (P_UserId u) => Some (inr u)
  | _ => None
  end.

Definition Pubkey_GetPublicKey `{PacketLib} (pubkey : Pubkey) : option (error + packet_PublicKey) :=
  assert_PublicKey (packet_Read (pk_Packet pubkey)).

Definition Pubkey_GetPacket `{PacketLib} (pubkey : Pubkey) : option (error + packet_Packet) :=
  sum_map id P_PublicKey <$> Pubkey_GetPublicKey pubkey.

Definition Pubkey_SetPublicKey `{PacketLib} (pubkey : Pubkey) (pk : packet_PublicKey)
    : Pubkey * option error :=
  match PublicKey_Serialize pk with
  | inl err => (pubkey, Some err)
  | inr buf =>
    let fingerprint := Fingerprint pk in
    match PublicKey_BitLength pk with
    | inl err => (pubkey, Some err)
    | inr bitLen =>
      if pkt_IsSubkey pk then (pubkey, Some InvalidPacketErr)
      else
        ({| pk_RFingerprint := Reverse fingerprint;
            pk_Creation := pkt_CreationTime pk;
            pk_Expiration := pk_Expiration pubkey;
            pk_State := pk_State pubkey;
            pk_Packet := buf;
            pk_Ctime := pk_Ctime pubkey;
            pk_Mtime := pk_Mtime pubkey;
            pk_Md5 := pk_Md5 pubkey;
            pk_Sha256 := pk_Sha256 pubkey;
            pk_RevsigDigest := pk_RevsigDigest pubkey;
            pk_Algorithm := pkt_PubKeyAlgo pk;
            pk_BitLen := bitLen;
            pk_Signatures := pk_Signatures pubkey;
            pk_Subkeys := pk_Subkeys pubkey;
            pk_UserIds := pk_UserIds pubkey;
            pk_UserAttributes := pk_UserAttributes pubkey;
            pk_Revsig := pk_Revsig pubkey |}, None)
    end
  end.

Definition Pubkey_SetPacket `{PacketLib} (pubkey : Pubkey) (p : packet_Packet)
    : Pubkey * option error :=
  match p with
  | P_PublicKey pk => Pubkey_SetPublicKey pubkey pk
  | _ => (pubkey, Some ErrInvalidPacketType)
  end.

(** ** Signature: packet accessors *)

Definition Signature_GetSignature `{PacketLib} (sig : Signature) : error + packet_Packet :=
  packet_Read (sig_Packet sig).

Definition Signature_GetPacket `{PacketLib} (sig : Signature) : error + packet_Packet :=
  Signature_GetSignature sig.

(** [binary.BigEndian.PutUint64] into an [[8]byte]. *)
Definition byte_of_Z (z : Z) : Byte.byte :=
  default Byte.x00 (Byte.of_N (Z.to_N (Z.land z 255))).

Definition BigEndian_PutUint64 (v : Z) : list Byte.byte :=
  [ byte_of_Z (Z.shiftr v 56); byte_of_Z (Z.shiftr v 48);
    byte_of_Z (Z.shiftr v 40); byte_of_Z (Z.shiftr v 32);
    byte_of_Z (Z.shiftr v 24); byte_of_Z (Z.shiftr v 16);
    byte_of_Z (Z.shiftr v 8); byte_of_Z v ].

(** [hex.EncodeToString]: two characters of ["0123456789abcdef"] a byte. *)
Definition hextable : string := "0123456789abcdef"%string.

Definition hex_char (n : N) : ascii :=
  default "0"%char (String.get (N.to_nat n) hextable).

Fixpoint hex_EncodeToString (src : list Byte.byte) : string :=
  match src with
  | [] => EmptyString
  | v :: rest =>
    String (hex_char (N.shiftr (Byte.to_N v) 4))
      (String (hex_char (N.land (Byte.to_N v) 15)) (hex_EncodeToString rest))
  end.

Definition Signature_setPacketV4 `{PacketLib} (sig : Signature) (s : packet_Signature)
    : Signature * option error :=
  match Signature_Serialize s with
  | inl err => (sig, Some err)
  | inr buf =>
    match pkt_IssuerKeyId s with
    | None => (sig, Some ErrMissingIssuerKeyId)
    | Some keyid =>
      let issuerKeyId := BigEndian_PutUint64 keyid in
      let sigKeyId := hex_EncodeToString issuerKeyId in
      ({| sig_ScopedDigest := sig_ScopedDigest sig;
          sig_Creation := pkt_SigCreationTime s;
          sig_Expiration :=
            match pkt_SigLifetimeSecs s with
            | Some secs => pkt_SigCreationTime s + secs
            | None => sig_Expiration sig
            end;
          sig_State := sig_State sig;
          sig_Packet := buf;
          sig_SigType := pkt_SigType s;
          sig_RIssuerKeyId := Reverse sigKeyId;
          sig_RIssuerFingerprint := sig_RIssuerFingerprint sig;
          sig_RevsigDigest := sig_RevsigDigest sig;
          sig_Revsig := sig_Revsig sig |}, None)
    end
  end.

Definition Signature_SetSignature `{PacketLib} (sig : Signature) (p : packet_Packet)
    : Signature * option error :=
  match p with
  | P_Signature s => Signature_setPacketV4 sig s
  | _ => (sig, Some InvalidPacketType)
  end.

Definition Signature_SetPacket `{PacketLib} (sig : Signature) (p : packet_Packet)
    : Signature * option error :=
  Signature_SetSignature sig p.

(** ** UserId: packet accessors *)

(** [GetUserId] builds its buffer from [pubkey.Packet]; [pubkey] is not
    the receiver, so the Pubkey it denotes is an argument here. *)
Definition UserId_GetUserId `{PacketLib} (pubkey : Pubkey) (uid : UserId)
    : option (error + packet_UserId) :=
  assert_UserId (packet_Read (pk_Packet pubkey)).

Definition UserId_GetPacket `{PacketLib} (pubkey : Pubkey) (uid : UserId)
    : option (error + packet_Packet) :=
  sum_map id P_UserId <$> UserId_GetUserId pubkey uid.

Definition UserId_SetUserId `{PacketLib} (uid : UserId) (u : packet_UserId)
    : UserId * option error :=
  match UserId_Serialize u with
  | inl err => (uid, Some err)
  | inr buf =>
    ({| uid_ScopedDigest := uid_ScopedDigest uid;
        uid_Creation := uid_Creation uid;
        uid_Expiration := uid_Expiration uid;
        uid_State := uid_State uid;
        uid_Packet := buf;
        uid_PubkeyRFP := uid_PubkeyRFP uid;
        uid_Keywords := CleanUtf8 (pkt_Id u);
        uid_SelfSignature := uid_SelfSignature uid;
        uid_Signatures := uid_Signatures uid |}, None)
  end.

(** The source calls [SetUserId(u)] without a receiver; the method of
    the receiver is the only function of that name. *)
Definition UserId_SetPacket `{PacketLib} (uid : UserId) (p : packet_Packet)
    : UserId * option error :=
  match p with
  | P_UserId u => UserId_SetUserId uid u
  | _ => (uid, Some ErrInvalidPacketType)
  end.

(** ** UserAttribute: packet accessors and images *)

Definition UserAttribute_GetOpaquePacket `{PacketLib} (uat : UserAttribute)
    : error + packet_OpaquePacket :=
  OpaqueReader_Next (uat_Packet uat).

(** As for [SetUserId]: [GetOpaquePacket()] is the receiver's method. *)
Definition UserAttribute_GetPacket `{PacketLib} (uat : UserAttribute)
    : error + packet_OpaquePacket :=
  UserAttribute_GetOpaquePacket uat.

(** The body ends after the assignment; the result is the nil error. *)
Definition UserAttribute_SetOpaquePacket `{PacketLib} (uat : UserAttribute)
    (op : packet_OpaquePacket) : UserAttribute * option error :=
  match OpaquePacket_Serialize op with
  | inl err => (uat, Some err)
  | inr buf =>
    ({| uat_ScopedDigest := uat_ScopedDigest uat;
        uat_Creation := uat_Creation uat;
        uat_Expiration := uat_Expiration uat;
        uat_State := uat_State uat;
        uat_Packet := buf;
        uat_PubkeyRFP := uat_PubkeyRFP uat;
        uat_SelfSignature := uat_SelfSignature uat;
        uat_Signatures := uat_Signatures uat |}, None)
  end.

Definition UserAttribute_SetPacket `{PacketLib} (uat : UserAttribute) (p : packet_Packet)
    : UserAttribute * option error :=
  match p with
  | P_Opaque op => UserAttribute_SetOpaquePacket uat op
  | _ => (uat, Some ErrInvalidPacketType)
  end.

Definition ImageSubType : Z := 1.

Definition ImageSubOffset : nat := 16.

(** The subpackets an image is taken from. *)
Definition is_image (sp : packet_OpaqueSubpacket) : Prop :=
  sp_SubType sp = ImageSubType ∧ (ImageSubOffset < length (sp_Contents sp))%nat.

#[export] Instance is_image_dec sp : Decision (is_image sp) :=
  decide (sp_SubType sp = ImageSubType
          ∧ (ImageSubOffset < length (sp_Contents sp))%nat).

(** One iteration of the loop of [GetJpegData]. *)
Definition GetJpegData_step (result : list (list Byte.byte))
    (subpacket : packet_OpaqueSubpacket) : list (list Byte.byte) :=
  if (sp_SubType subpacket =? ImageSubType)%Z
     && bool_decide (ImageSubOffset < length (sp_Contents subpacket))%nat
  then result ++ [drop ImageSubOffset (sp_Contents subpacket)]
  else result.

Definition UserAttribute_GetJpegData `{PacketLib} (uat : UserAttribute)
    : list (list Byte.byte) :=
  match UserAttribute_GetPacket uat with
  | inl err => []
  | inr op =>
    match packet_OpaqueSubpackets (op_Contents op) with
    | inl err => []
    | inr subpackets => foldl GetJpegData_step [] subpackets
    end
  end.

(** ** Subkey: packet accessors *)

(** [GetPacket] calls [GetPublicKey], and [GetPublicKey] builds its
    buffer from the call [subkey.GetPacket()], not from the field
    [subkey.Packet]: the two methods call each other with no base case.
    [fuel] bounds the depth of calls, the outer [None] is "not returned
    within [fuel] calls".  [as_bytes] is whatever byte sequence the
    result of the inner call is taken for. *)
Fixpoint Subkey_GetPacket `{PacketLib} (as_bytes : error + packet_Packet → list Byte.byte)
    (fuel : nat) (subkey : Subkey) {struct fuel}
    : option (option (error + packet_Packet)) :=
  match fuel with
  | O => None
  | S fuel' =>
    match Subkey_GetPublicKey as_bytes fuel' subkey with
    | None => None
    | Some r => Some (sum_map id P_PublicKey <$> r)
    end
  end
with Subkey_GetPublicKey `{PacketLib} (as_bytes : error + packet_Packet → list Byte.byte)
    (fuel : nat) (subkey : Subkey) {struct fuel}
    : option (option (error + packet_PublicKey)) :=
  match fuel with
  | O => None
  | S fuel' =>
    match Subkey_GetPacket as_bytes fuel' subkey with
    | None => None
    | Some None => Some None
    | Some (Some r) => Some (assert_PublicKey (packet_Read (as_bytes r)))
    end
  end.

Definition Subkey_SetPublicKey `{PacketLib} (subkey : Subkey) (pk : packet_PublicKey)
    : Subkey * option error :=
  match PublicKey_Serialize pk with
  | inl err => (subkey, Some err)
  | inr buf =>
    let fingerprint := Fingerprint pk in
    match PublicKey_BitLength pk with
    | inl err => (subkey, Some err)
    | inr bitLen =>
      if negb (pkt_IsSubkey pk) then (subkey, Some InvalidPacketErr)
      else
        ({| sub_RFingerprint := Reverse fingerprint;
            sub_Creation := pkt_CreationTime pk;
            sub_Expiration := sub_Expiration subkey;
            sub_State := sub_State subkey;
            sub_Packet := buf;
            sub_PubkeyRFP := sub_PubkeyRFP subkey;
            sub_RevsigDigest := sub_RevsigDigest subkey;
            sub_Algorithm := pkt_PubKeyAlgo pk;
            sub_BitLen := bitLen;
            sub_Signatures := sub_Signatures subkey |}, None)
    end
  end.

Definition Subkey_SetPacket `{PacketLib} (subkey : Subkey) (p : packet_Packet)
    : Subkey * option error :=
  match p with
  | P_PublicKey pk => Subkey_SetPublicKey subkey pk
  | _ => (subkey, Some ErrInvalidPacketType)
  end.

(** ** Traversal *)

(** A [PacketVisitor] is a Go closure: it may keep state of its own
    between calls.  [St] is that state; the visitor is taken not to
    alter the tree it walks. *)
Definition PacketVisitor (St : Type) : Type :=
  PacketRecord → St → St * option error.

(** [for _, x := range xs { err = x.Visit(visitor); if err != nil { return } }];
    gives the state and the error the function would return with if
    the loop were its last statement. *)
Fixpoint range_Visit {St A : Type} (visit : A → St → St * option error)
    (xs : list A) (st : St) : St * option error :=
  match xs with
  | [] => (st, None)
  | x :: rest =>
    match visit x st with
    | (st', Some err) => (st', Some err)
    | (st', None) => range_Visit visit rest st'
    end
  end.

Definition Signature_Visit {St} (visitor : PacketVisitor St) (sig : Signature)
    (st : St) : St * option error :=
  visitor (PR_Signature sig) st.

Definition UserId_Visit {St} (visitor : PacketVisitor St) (uid : UserId)
    (st : St) : St * option error :=
  match visitor (PR_UserId uid) st with
  | (st1, Some err) => (st1, Some err)
  | (st1, None) => range_Visit (Signature_Visit visitor) (uid_Signatures uid) st1
  end.

Definition UserAttribute_Visit {St} (visitor : PacketVisitor St) (uat : UserAttribute)
    (st : St) : St * option error :=
  match visitor (PR_UserAttribute uat) st with
  | (st1, Some err) => (st1, Some err)
  | (st1, None) => range_Visit (Signature_Visit visitor) (uat_Signatures uat) st1
  end.

Definition Subkey_Visit {St} (visitor : PacketVisitor St) (subkey : Subkey)
    (st : St) : St * option error :=
  match visitor (PR_Subkey subkey) st with
  | (st1, Some err) => (st1, Some err)
  | (st1, None) => range_Visit (Signature_Visit visitor) (sub_Signatures subkey) st1
  end.

Definition Pubkey_Visit {St} (visitor : PacketVisitor St) (pubkey : Pubkey)
    (st : St) : St * option error :=
  match visitor (PR_Pubkey pubkey) st with
  | (st1, Some err) => (st1, Some err)
  | (st1, None) =>
    match range_Visit (Signature_Visit visitor) (pk_Signatures pubkey) st1 with
    | (st2, Some err) => (st2, Some err)
    | (st2, None) =>
      match range_Visit (UserId_Visit visitor) (pk_UserIds pubkey) st2 with
      | (st3, Some err) => (st3, Some err)
      | (st3, None) =>
        match range_Visit (UserAttribute_Visit visitor) (pk_UserAttributes pubkey) st3 with
        | (st4, Some err) => (st4, Some err)
        | (st4, None) =>
          range_Visit (Subkey_Visit visitor) (pk_Subkeys pubkey) st4
        end
      end
    end
  end.

(** The order the design document fixes, as a list. *)
Definition UserId_preorder (uid : UserId) : list PacketRecord :=
  PR_UserId uid :: (PR_Signature <$> uid_Signatures uid).

Definition UserAttribute_preorder (uat : UserAttribute) : list PacketRecord :=
  PR_UserAttribute uat :: (PR_Signature <$> uat_Signatures uat).

Definition Subkey_preorder (subkey : Subkey) : list PacketRecord :=
  PR_Subkey subkey :: (PR_Signature <$> sub_Signatures subkey).

Definition Pubkey_preorder (pubkey : Pubkey) : list PacketRecord :=
  PR_Pubkey pubkey
  :: (PR_Signature <$> pk_Signatures pubkey)
  ++ (pk_UserIds pubkey ≫= UserId_preorder)
  ++ (pk_UserAttributes pubkey ≫= UserAttribute_preorder)
  ++ (pk_Subkeys pubkey ≫= Subkey_preorder).

(** The visitor applied to each record of [rs] in turn while it returns
    nil: the state reached, or [None] if one of the calls returned an
    error. *)
Fixpoint visit_all {St} (visitor : PacketVisitor St) (rs : list PacketRecord)
    (st : St) : option St :=
  match rs with
  | [] => Some st
  | r :: rest =>
    match visitor r st with
    | (st', None) => visit_all visitor rest st'
    | (_, Some _) => None
    end
  end.

(** What a walk over the records [rs] gives: with no error, the visitor
    was applied to all of [rs] in order; with an error, to the records
    up to the first one it failed on, and the error is that call's. *)
Definition fail_fast_over {St} (visitor : PacketVisitor St) (rs : list PacketRecord)
    (st : St) (result : St * option error) : Prop :=
  match result with
  | (st', None) => visit_all visitor rs st = Some st'
  | (st', Some err) =>
    ∃ visited r rest st_r,
      rs = visited ++ r :: rest
      ∧ visit_all visitor visited st = Some st_r
      ∧ visitor r st_r = (st', Some err)
  end.

(** ** Self-signature resolution *)

(** [packet.SignatureType] is a [uint8]: the conversion of the [int]
    field keeps the low eight bits. *)
Definition packet_SignatureType (sigType : Z) : Z := Z.land sigType 255.

Definition SigTypePositiveCert : Z := 0x13.

Fixpoint UserId_SelfSignature_range (sigs : list Signature) : option Signature :=
  match sigs with
  | [] => None
  | userSig :: rest =>
    if (packet_SignatureType (sig_SigType userSig) =? SigTypePositiveCert)%Z
    then Some userSig
    else UserId_SelfSignature_range rest
  end.

Definition UserId_SelfSignature (uid : UserId) : option Signature :=
  UserId_SelfSignature_range (uid_Signatures uid).

Fixpoint Pubkey_SelfSignature_range (sigs : list Signature) : option Signature :=
  match sigs with
  | [] => None
  | pkSig :: rest =>
    if (packet_SignatureType (sig_SigType pkSig) =? SigTypePositiveCert)%Z
    then Some pkSig
    else if (packet_SignatureType (sig_SigType pkSig) =? packet_SignatureType 0x19)%Z
    then Some pkSig
    else Pubkey_SelfSignature_range rest
  end.

Definition Pubkey_SelfSignature (pk : Pubkey) : option Signature :=
  Pubkey_SelfSignature_range (pk_Signatures pk).

Definition is_positive_cert (sig : Signature) : bool :=
  (packet_SignatureType (sig_SigType sig) =? 0x13)%Z.

Definition is_key_self_sig (sig : Signature) : bool :=
  (packet_SignatureType (sig_SigType sig) =? 0x13)%Z
  || (packet_SignatureType (sig_SigType sig) =? 0x19)%Z.

(** [s] is the first element of [sigs], in list order, that [p] holds of. *)
Definition first_match (p : Signature → bool) (sigs : list Signature)
    (s : Signature) : Prop :=
  ∃ before after,
    sigs = before ++ s :: after ∧ p s = true ∧ Forall (λ x, p x = false) before.

(** ** Appending signatures *)

Definition Pubkey_AddSignature (pubkey : Pubkey) (sig : Signature) : Pubkey :=
  {| pk_RFingerprint := pk_RFingerprint pubkey;
     pk_Creation := pk_Creation pubkey;
     pk_Expiration := pk_Expiration pubkey;
     pk_State := pk_State pubkey;
     pk_Packet := pk_Packet pubkey;
     pk_Ctime := pk_Ctime pubkey;
     pk_Mtime := pk_Mtime pubkey;
     pk_Md5 := pk_Md5 pubkey;
     pk_Sha256 := pk_Sha256 pubkey;
     pk_RevsigDigest := pk_RevsigDigest pubkey;
     pk_Algorithm := pk_Algorithm pubkey;
     pk_BitLen := pk_BitLen pubkey;
     pk_Signatures := pk_Signatures pubkey ++ [sig];
     pk_Subkeys := pk_Subkeys pubkey;
     pk_UserIds := pk_UserIds pubkey;
     pk_UserAttributes := pk_UserAttributes pubkey;
     pk_Revsig := pk_Revsig pubkey |}.

Definition UserId_AddSignature (uid : UserId) (sig : Signature) : UserId :=
  {| uid_ScopedDigest := uid_ScopedDigest uid;
     uid_Creation := uid_Creation uid;
     uid_Expiration := uid_Expiration uid;
     uid_State := uid_State uid;
     uid_Packet := uid_Packet uid;
     uid_PubkeyRFP := uid_PubkeyRFP uid;
     uid_Keywords := uid_Keywords uid;
     uid_SelfSignature := uid_SelfSignature uid;
     uid_Signatures := uid_Signatures uid ++ [sig] |}.

Definition UserAttribute_AddSignature (uat : UserAttribute) (sig : Signature)
    : UserAttribute :=
  {| uat_ScopedDigest := uat_ScopedDigest uat;
     uat_Creation := uat_Creation uat;
     uat_Expiration := uat_Expiration uat;
     uat_State := uat_State uat;
     uat_Packet := uat_Packet uat;
     uat_PubkeyRFP := uat_PubkeyRFP uat;
     uat_SelfSignature := uat_SelfSignature uat;
     uat_Signatures := uat_Signatures uat ++ [sig] |}.

Definition Subkey_AddSignature (subkey : Subkey) (sig : Signature) : Subkey :=
  {| sub_RFingerprint := sub_RFingerprint subkey;
     sub_Creation := sub_Creation subkey;
     sub_Expiration := sub_Expiration subkey;
     sub_State := sub_State subkey;
     sub_Packet := sub_Packet subkey;
     sub_PubkeyRFP := sub_PubkeyRFP subkey;
     sub_RevsigDigest := sub_RevsigDigest subkey;
     sub_Algorithm := sub_Algorithm subkey;
     sub_BitLen := sub_BitLen subkey;
     sub_Signatures := sub_Signatures subkey ++ [sig] |}.

(** The interface [Signable], with the two reads the merge needs: the
    identity string of the entity (its primary key) and its signature
    list.  The two laws say what [AddSignature] is on them. *)
Class Signable (A : Type) : Type := {
  identity : A → string;
  signatures : A → list Signature;
  AddSignature : A → Signature → A;
  identity_AddSignature : ∀ e s, identity (AddSignature e s) = identity e;
  signatures_AddSignature : ∀ e s, signatures (AddSignature e s) = signatures e ++ [s]
}.

#[export] Instance Pubkey_Signable : Signable Pubkey := {|
  identity := pk_RFingerprint;
  signatures := pk_Signatures;
  AddSignature := Pubkey_AddSignature;
  identity_AddSignature := λ _ _, eq_refl;
  signatures_AddSignature := λ _ _, eq_refl |}.

#[export] Instance UserId_Signable : Signable UserId := {|
  identity := uid_ScopedDigest;
  signatures := uid_Signatures;
  AddSignature := UserId_AddSignature;
  identity_AddSignature := λ _ _, eq_refl;
  signatures_AddSignature := λ _ _, eq_refl |}.

#[export] Instance UserAttribute_Signable : Signable UserAttribute := {|
  identity := uat_ScopedDigest;
  signatures := uat_Signatures;
  AddSignature := UserAttribute_AddSignature;
  identity_AddSignature := λ _ _, eq_refl;
  signatures_AddSignature := λ _ _, eq_refl |}.

#[export] Instance Subkey_Signable : Signable Subkey := {|
  identity := sub_RFingerprint;
  signatures := sub_Signatures;
  AddSignature := Subkey_AddSignature;
  identity_AddSignature := λ _ _, eq_refl;
  signatures_AddSignature := λ _ _, eq_refl |}.

(** ** Merge engine *)

(** Modelled from the spec: the merge engine is not in the source; this
    is section 4.5 of the design document, rule by rule.

    Rule 1, "union by signature identity (scoped digest); a signature
    present in only one side is carried into the result untouched; a
    signature present in both (same digest) is kept once": each incoming
    signature is appended to the entity unless one of that digest is
    already there. *)
Definition has_signature (sigs : list Signature) (s : Signature) : bool :=
  bool_decide (sig_ScopedDigest s ∈ sig_ScopedDigest <$> sigs).

Definition merge_signature {A} `{Signable A} (e : A) (s : Signature) : A :=
  if has_signature (signatures e) s then e else AddSignature e s.

Definition merge_signatures {A} `{Signable A} (e : A) (incoming : list Signature) : A :=
  foldl merge_signature e incoming.

(** Modelled from the spec: rules 2 and 3 of section 4.5, "matched
    across the two trees by their identity digest; if [one] with the
    same digest exists on both sides, its signature lists are merged per
    rule (1); [one] present only on one side is carried over with its
    full signature list intact". *)
Definition merge_child {A} `{Signable A} (acc : list A) (u : A) : list A :=
  if bool_decide (identity u ∈ identity <$> acc)
  then (λ e, if bool_decide (identity e = identity u)
             then merge_signatures e (signatures u) else e) <$> acc
  else acc ++ [u].

Definition merge_children {A} `{Signable A} (existing incoming : list A) : list A :=
  foldl merge_child existing incoming.

(** Modelled from the spec: the recomputation of [State] and of the
    [Revsig] reference (rules 4 and 5) is "purely a function of the
    merged signature set"; which function is not said, so it is an
    interface.  [derive_state] also gets the resolved self-signature. *)
Class Derivation : Type := {
  derive_state : list Signature → option Signature → Z;
  derive_revsig : list Signature → option Signature
}.

(** Modelled from the spec: rule 4, "the Self-Signature Resolver is
    re-run over every UserId/UserAttribute and over the Pubkey itself,
    replacing any previously cached SelfSignature/Revsig references",
    and rule 5 for the states of Pubkey, Subkey and UserId. *)
Definition resolve_UserId `{Derivation} (uid : UserId) : UserId :=
  {| uid_ScopedDigest := uid_ScopedDigest uid;
     uid_Creation := uid_Creation uid;
     uid_Expiration := uid_Expiration uid;
     uid_State := derive_state (uid_Signatures uid) (UserId_SelfSignature uid);
     uid_Packet := uid_Packet uid;
     uid_PubkeyRFP := uid_PubkeyRFP uid;
     uid_Keywords := uid_Keywords uid;
     uid_SelfSignature := UserId_SelfSignature uid;
     uid_Signatures := uid_Signatures uid |}.

Definition resolve_UserAttribute `{Derivation} (uat : UserAttribute) : UserAttribute :=
  {| uat_ScopedDigest := uat_ScopedDigest uat;
     uat_Creation := uat_Creation uat;
     uat_Expiration := uat_Expiration uat;
     uat_State := uat_State uat;
     uat_Packet := uat_Packet uat;
     uat_PubkeyRFP := uat_PubkeyRFP uat;
     uat_SelfSignature := UserId_SelfSignature_range (uat_Signatures uat);
     uat_Signatures := uat_Signatures uat |}.

Definition resolve_Subkey `{Derivation} (subkey : Subkey) : Subkey :=
  {| sub_RFingerprint := sub_RFingerprint subkey;
     sub_Creation := sub_Creation subkey;
     sub_Expiration := sub_Expiration subkey;
     sub_State := derive_state (sub_Signatures subkey) None;
     sub_Packet := sub_Packet subkey;
     sub_PubkeyRFP := sub_PubkeyRFP subkey;
     sub_RevsigDigest := sub_RevsigDigest subkey;
     sub_Algorithm := sub_Algorithm subkey;
     sub_BitLen := sub_BitLen subkey;
     sub_Signatures := sub_Signatures subkey |}.

Definition resolve_Pubkey `{Derivation} (pubkey : Pubkey) : Pubkey :=
  {| pk_RFingerprint := pk_RFingerprint pubkey;
     pk_Creation := pk_Creation pubkey;
     pk_Expiration := pk_Expiration pubkey;
     pk_State := derive_state (pk_Signatures pubkey) (Pubkey_SelfSignature pubkey);
     pk_Packet := pk_Packet pubkey;
     pk_Ctime := pk_Ctime pubkey;
     pk_Mtime := pk_Mtime pubkey;
     pk_Md5 := pk_Md5 pubkey;
     pk_Sha256 := pk_Sha256 pubkey;
     pk_RevsigDigest := pk_RevsigDigest pubkey;
     pk_Algorithm := pk_Algorithm pubkey;
     pk_BitLen := pk_BitLen pubkey;
     pk_Signatures := pk_Signatures pubkey;
     pk_Subkeys := resolve_Subkey <$> pk_Subkeys pubkey;
     pk_UserIds := resolve_UserId <$> pk_UserIds pubkey;
     pk_UserAttributes := resolve_UserAttribute <$> pk_UserAttributes pubkey;
     pk_Revsig := derive_revsig (pk_Signatures pubkey) |}.

(** Modelled from the spec: the structural union of rules 1 to 3. *)
Definition merge_tree (existing incoming : Pubkey) : Pubkey :=
  let merged := merge_signatures existing (pk_Signatures incoming) in
  {| pk_RFingerprint := pk_RFingerprint merged;
     pk_Creation := pk_Creation merged;
     pk_Expiration := pk_Expiration merged;
     pk_State := pk_State merged;
     pk_Packet := pk_Packet merged;
     pk_Ctime := pk_Ctime merged;
     pk_Mtime := pk_Mtime merged;
     pk_Md5 := pk_Md5 merged;
     pk_Sha256 := pk_Sha256 merged;
     pk_RevsigDigest := pk_RevsigDigest merged;
     pk_Algorithm := pk_Algorithm merged;
     pk_BitLen := pk_BitLen merged;
     pk_Signatures := pk_Signatures merged;
     pk_Subkeys := merge_children (pk_Subkeys existing) (pk_Subkeys incoming);
     pk_UserIds := merge_children (pk_UserIds existing) (pk_UserIds incoming);
     pk_UserAttributes :=
       merge_children (pk_UserAttributes existing) (pk_UserAttributes incoming);
     pk_Revsig := pk_Revsig merged |}.

(** Modelled from the spec: the contract of section 4.5,
    "merge(existing Pubkey, incoming Pubkey) -> (merged Pubkey, error)",
    failing with "fingerprint mismatch" unless
    [existing.RFingerprint == incoming.RFingerprint]. *)
Definition merge `{Derivation} (existing incoming : Pubkey) : error + Pubkey :=
  if bool_decide (pk_RFingerprint existing = pk_RFingerprint incoming)
  then inr (resolve_Pubkey (merge_tree existing incoming))
  else inl ErrFingerprintMismatch.

(** The identities a tree contains: the digests of the key's own
    signatures, the identity of each UserId, UserAttribute and Subkey,
    and, under each of those identities, the digests of the signatures
    it owns. *)
Definition signature_ids (sigs : list Signature) : gset string :=
  list_to_set (sig_ScopedDigest <$> sigs).

Definition child_ids {A} `{Signable A} (l : list A) : gset string :=
  list_to_set (identity <$> l).

Definition child_signature_ids {A} `{Signable A} (l : list A) : gset (string * string) :=
  list_to_set (l ≫= λ e, (λ s, (identity e, sig_ScopedDigest s)) <$> signatures e).

Record identities : Type := mkIdentities {
  ids_Signatures : gset string;
  ids_UserIds : gset string;
  ids_UserIdSignatures : gset (string * string);
  ids_UserAttributes : gset string;
  ids_UserAttributeSignatures : gset (string * string);
  ids_Subkeys : gset string;
  ids_SubkeySignatures : gset (string * string)
}.

Definition Pubkey_identities (pubkey : Pubkey) : identities :=
  {| ids_Signatures := signature_ids (pk_Signatures pubkey);
     ids_UserIds := child_ids (pk_UserIds pubkey);
     ids_UserIdSignatures := child_signature_ids (pk_UserIds pubkey);
     ids_UserAttributes := child_ids (pk_UserAttributes pubkey);
     ids_UserAttributeSignatures := child_signature_ids (pk_UserAttributes pubkey);
     ids_Subkeys := child_ids (pk_Subkeys pubkey);
     ids_SubkeySignatures := child_signature_ids (pk_Subkeys pubkey) |}.

(** The fields rules 4 and 5 of the merge recompute (the states, the
    cached self-signatures and the [Revsig] reference), erased. *)
Definition erase_derived_UserId (uid : UserId) : UserId :=
  {| uid_ScopedDigest := uid_ScopedDigest uid;
     uid_Creation := uid_Creation uid;
     uid_Expiration := uid_Expiration uid;
     uid_State := 0;
     uid_Packet := uid_Packet uid;
     uid_PubkeyRFP := uid_PubkeyRFP uid;
     uid_Keywords := uid_Keywords uid;
     uid_SelfSignature := None;
     uid_Signatures := uid_Signatures uid |}.

Definition erase_derived_UserAttribute (uat : UserAttribute) : UserAttribute :=
  {| uat_ScopedDigest := uat_ScopedDigest uat;
     uat_Creation := uat_Creation uat;
     uat_Expiration := uat_Expiration uat;
     uat_State := uat_State uat;
     uat_Packet := uat_Packet uat;
     uat_PubkeyRFP := uat_PubkeyRFP uat;
     uat_SelfSignature := None;
     uat_Signatures := uat_Signatures uat |}.

Definition erase_derived_Subkey (subkey : Subkey) : Subkey :=
  {| sub_RFingerprint := sub_RFingerprint subkey;
     sub_Creation := sub_Creation subkey;
     sub_Expiration := sub_Expiration subkey;
     sub_State := 0;
     sub_Packet := sub_Packet subkey;
     sub_PubkeyRFP := sub_PubkeyRFP subkey;
     sub_RevsigDigest := sub_RevsigDigest subkey;
     sub_Algorithm := sub_Algorithm subkey;
     sub_BitLen := sub_BitLen subkey;
     sub_Signatures := sub_Signatures subkey |}.

Definition erase_derived (pubkey : Pubkey) : Pubkey :=
  {| pk_RFingerprint := pk_RFingerprint pubkey;
     pk_Creation := pk_Creation pubkey;
     pk_Expiration := pk_Expiration pubkey;
     pk_State := 0;
     pk_Packet := pk_Packet pubkey;
     pk_Ctime := pk_Ctime pubkey;
     pk_Mtime := pk_Mtime pubkey;
     pk_Md5 := pk_Md5 pubkey;
     pk_Sha256 := pk_Sha256 pubkey;
     pk_RevsigDigest := pk_RevsigDigest pubkey;
     pk_Algorithm := pk_Algorithm pubkey;
     pk_BitLen := pk_BitLen pubkey;
     pk_Signatures := pk_Signatures pubkey;
     pk_Subkeys := erase_derived_Subkey <$> pk_Subkeys pubkey;
     pk_UserIds := erase_derived_UserId <$> pk_UserIds pubkey;
     pk_UserAttributes := erase_derived_UserAttribute <$> pk_UserAttributes pubkey;
     pk_Revsig := None |}.

(** Two trees are structurally equivalent when they are the same tree
    up to those derived fields: the same key, the same signatures on
    it, and the same UserIds, UserAttributes and Subkeys in the same
    order, each with the same packet and the same list of signatures. *)
Definition structurally_equivalent (M A : Pubkey) : Prop :=
  erase_derived M = erase_derived A.

(** The identities of a tree, entity by entity: what structurally
    equivalent trees share at the least. *)
Definition entity_skeleton {A} `{Signable A} (e : A) : string * list string :=
  (identity e, sig_ScopedDigest <$> signatures e).

Record skeleton : Type := mkSkeleton {
  sk_RFingerprint : string;
  sk_Signatures : list string;
  sk_UserIds : list (string * list string);
  sk_UserAttributes : list (string * list string);
  sk_Subkeys : list (string * list string)
}.

Definition Pubkey_skeleton (pubkey : Pubkey) : skeleton :=
  {| sk_RFingerprint := pk_RFingerprint pubkey;
     sk_Signatures := sig_ScopedDigest <$> pk_Signatures pubkey;
     sk_UserIds := entity_skeleton <$> pk_UserIds pubkey;
     sk_UserAttributes := entity_skeleton <$> pk_UserAttributes pubkey;
     sk_Subkeys := entity_skeleton <$> pk_Subkeys pubkey |}.

(** The identity of an owned entity is its primary key: no two
    UserIds, UserAttributes or Subkeys of one key share it. *)
Definition unique_identities (pubkey : Pubkey) : Prop :=
  NoDup (identity <$> pk_UserIds pubkey)
  ∧ NoDup (identity <$> pk_UserAttributes pubkey)
  ∧ NoDup (identity <$> pk_Subkeys pubkey).

(** ** Writing a key out *)

(** [Pubkey.Serialize] hands the stored bytes to the writer and returns
    the writer's error.  An [io.Writer] is its state [W] and what
    [Write] does to it. *)
Definition Pubkey_Serialize {W : Type} (Write : list Byte.byte → W → W * option error)
    (pubkey : Pubkey) (w : W) : W * option error :=
  Write (pk_Packet pubkey) w.

(** ** Sorting packets *)

(** Go's [s[i]] on a slice: a panic when [i] is out of range. *)
Definition slice_index {A : Type} (s : list A) (i : Z) : option A :=
  if decide (0 ≤ i) then s !! Z.to_nat i else None.

Definition packetSlice_Len (ps : list packet_OpaquePacket) : Z :=
  Z.of_nat (length ps).

(** [ps[i], ps[j] = ps[j], ps[i]]: both operands are read first, then
    the two elements are assigned left to right. *)
Definition packetSlice_Swap (ps : list packet_OpaquePacket) (i j : Z)
    : option (list packet_OpaquePacket) :=
  match slice_index ps i, slice_index ps j with
  | Some p_i, Some p_j => Some (<[Z.to_nat j := p_i]> (<[Z.to_nat i := p_j]> ps))
  | _, _ => None
  end.

(** The conversion to [int32], and [int32] arithmetic, wrap. *)
Definition int32 (z : Z) : Z := (z + 2 ^ 31) mod 2 ^ 32 - 2 ^ 31.

(** [bytes.Compare]: lexicographic, -1, 0 or 1. *)
Fixpoint bytes_Compare (a b : list Byte.byte) : Z :=
  match a, b with
  | [], [] => 0
  | [], _ :: _ => -1
  | _ :: _, [] => 1
  | x :: a', y :: b' =>
    if (Byte.to_N x <? Byte.to_N y)%N then -1
    else if (Byte.to_N y <? Byte.to_N x)%N then 1
    else bytes_Compare a' b'
  end.

(** The comparison of [Less], on the two packets it has indexed. *)
Definition sksPacketSorter_less (a b : packet_OpaquePacket) : bool :=
  let cmp := int32 (int32 (op_Tag a) - int32 (op_Tag b)) in
  if (cmp <? 0)%Z then true
  else if (0 <? cmp)%Z then false
  else (bytes_Compare (op_Contents a) (op_Contents b) <? 0)%Z.

Definition sksPacketSorter_Less (sps : list packet_OpaquePacket) (i j : Z) : option bool :=
  match slice_index sps i, slice_index sps j with
  | Some a, Some b => Some (sksPacketSorter_less a b)
  | _, _ => None
  end.

(** A [Tag] is a [uint8]. *)
Definition tags_uint8 (sps : list packet_OpaquePacket) : Prop :=
  Forall (λ p, 0 ≤ op_Tag p < 256) sps.

(** ** Reading a key id back

    The inverses, in Go's library, of the two encoders [setPacketV4]
    uses: [hex.DecodeString] and [binary.BigEndian.Uint64]. *)
Definition fromHexChar (c : ascii) : option N :=
  let n := N_of_ascii c in
  if (48 <=? n)%N && (n <=? 57)%N then Some (n - 48)%N
  else if (97 <=? n)%N && (n <=? 102)%N then Some (n - 97 + 10)%N
  else if (65 <=? n)%N && (n <=? 70)%N then Some (n - 65 + 10)%N
  else None.

Fixpoint hex_DecodeString (s : string) : error + list Byte.byte :=
  match s with
  | EmptyString => inr []
  | String c EmptyString =>
    match fromHexChar c with
    | Some _ => inl (LibError "encoding/hex: odd length hex string")
    | None => inl (LibError "encoding/hex: invalid byte")
    end
  | String hi (String lo rest) =>
    match fromHexChar hi, fromHexChar lo with
    | Some h, Some l =>
      match Byte.of_N (N.lor (N.shiftl h 4) l), hex_DecodeString rest with
      | Some b, inr bs => inr (b :: bs)
      | _, inl err => inl err
      | None, _ => inl (LibError "encoding/hex: invalid byte")
      end
    | _, _ => inl (LibError "encoding/hex: invalid byte")
    end
  end.

(** The first eight bytes as a big-endian number (a panic on fewer). *)
Definition BigEndian_Uint64 (b : list Byte.byte) : option Z :=
  match b with
  | b0 :: b1 :: b2 :: b3 :: b4 :: b5 :: b6 :: b7 :: _ =>
    let z x := Z.of_N (Byte.to_N x) in
    Some (Z.lor (z b7) (Z.lor (Z.shiftl (z b6) 8) (Z.lor (Z.shiftl (z b5) 16)
         (Z.lor (Z.shiftl (z b4) 24) (Z.lor (Z.shiftl (z b3) 32)
         (Z.lor (Z.shiftl (z b2) 40) (Z.lor (Z.shiftl (z b1) 48)
                (Z.shiftl (z b0) 56))))))))
  | _ => None
  end.

(** ** A small instance, to run the definitions on

    A toy packet library: one tag byte, then the body.  Its
    [PublicKey_BitLength] knows the RSA, ElGamal and DSA algorithm
    numbers only, as the library's does. *)

Definition ex_PublicKey_Serialize (pk : packet_PublicKey) : error + list Byte.byte :=
  inr ((if pkt_IsSubkey pk then Byte.x0e else Byte.x06)
       :: byte_of_Z (pkt_PubKeyAlgo pk) :: pkt_KeyMaterial pk).

Definition ex_PublicKey_BitLength (pk : packet_PublicKey) : error + Z :=
  if bool_decide (pkt_PubKeyAlgo pk ∈ [1; 2; 3; 16; 17])
  then inr (8 * Z.of_nat (length (pkt_KeyMaterial pk)))
  else inl (LibError "bad public-key algorithm").

Definition ex_Signature_Serialize (s : packet_Signature) : error + list Byte.byte :=
  inr (Byte.x02 :: byte_of_Z (pkt_SigType s) :: pkt_SigBody s).

Definition ex_UserId_Serialize (u : packet_UserId) : error + list Byte.byte :=
  inr (Byte.x0d :: list_byte_of_string (pkt_Id u)).

Definition ex_OpaquePacket_Serialize (op : packet_OpaquePacket) : error + list Byte.byte :=
  inr (byte_of_Z (op_Tag op) :: op_Contents op).

Definition ex_OpaqueReader_Next (buf : list Byte.byte) : error + packet_OpaquePacket :=
  match buf with
  | [] => inl (LibError "EOF")
  | tag :: contents => inr (mkOpaquePacket (Z.of_N (Byte.to_N tag)) contents)
  end.

Definition ex_packet_Read (buf : list Byte.byte) : error + packet_Packet :=
  match buf with
  | [] => inl (LibError "EOF")
  | tag :: body =>
    if Byte.eqb tag Byte.x0d then inr (P_UserId (mkPacketUserId (string_of_list_byte body)))
    else match body with
    | [] => inl (LibError "unexpected EOF")
    | b :: rest =>
      if Byte.eqb tag Byte.x06
      then inr (P_PublicKey (mkPublicKey 0 (Z.of_N (Byte.to_N b)) false rest))
      else if Byte.eqb tag Byte.x0e
      then inr (P_PublicKey (mkPublicKey 0 (Z.of_N (Byte.to_N b)) true rest))
      else if Byte.eqb tag Byte.x02
      then inr (P_Signature (mkPacketSignature (Z.of_N (Byte.to_N b)) 0 None None rest))
      else inr (P_Opaque (mkOpaquePacket (Z.of_N (Byte.to_N tag)) body))
    end
  end.

(** Subpackets as [length; type; content], [length] counting the type. *)
Fixpoint ex_subpackets (fuel : nat) (contents : list Byte.byte)
    : error + list packet_OpaqueSubpacket :=
  match fuel, contents with
  | _, [] => inr []
  | O, _ => inl (LibError "subpacket truncated")
  | S fuel', len :: rest =>
    let n := N.to_nat (Byte.to_N len) in
    match rest with
    | [] => inl (LibError "subpacket truncated")
    | t :: body =>
      if bool_decide (1 ≤ n ∧ n - 1 ≤ length body)%nat
      then match ex_subpackets fuel' (drop (n - 1) body) with
           | inl err => inl err
           | inr sps =>
             inr (mkOpaqueSubpacket (Z.of_N (Byte.to_N t)) (take (n - 1) body) :: sps)
           end
      else inl (LibError "subpacket truncated")
    end
  end.

Definition ex_lib : PacketLib := {|
  PublicKey_Serialize := ex_PublicKey_Serialize;
  PublicKey_BitLength := ex_PublicKey_BitLength;
  Signature_Serialize := ex_Signature_Serialize;
  UserId_Serialize := ex_UserId_Serialize;
  OpaquePacket_Serialize := ex_OpaquePacket_Serialize;
  packet_Read := ex_packet_Read;
  OpaqueReader_Next := ex_OpaqueReader_Next;
  packet_OpaqueSubpackets := λ contents, ex_subpackets (length contents) contents;
  Fingerprint := λ pk, hex_EncodeToString (pkt_KeyMaterial pk);
  CleanUtf8 := id |}.

(** A user attribute packet (tag 17) with three subpackets: an image
    of 16 header bytes and two data bytes, an image subpacket of two
    bytes, and a two-byte subpacket of type 2. *)
Definition ex_uat_packet : list Byte.byte :=
  [Byte.x11;
   Byte.x13; Byte.x01] ++ replicate 16 Byte.x00 ++ [Byte.xff; Byte.xd8] ++
  [Byte.x03; Byte.x01; Byte.xaa; Byte.xbb;
   Byte.x03; Byte.x02; Byte.xcc; Byte.xdd].

Definition ex_fp : string := "0123456789ABCDEF0123456789ABCDEF01234567"%string.

Definition ex_sig (digest : string) (sigType : Z) : Signature :=
  {| sig_ScopedDigest := digest; sig_Creation := 0; sig_Expiration := 0;
     sig_State := 0; sig_Packet := []; sig_SigType := sigType;
     sig_RIssuerKeyId := Reverse "89ABCDEF01234567";
     sig_RIssuerFingerprint := Reverse ex_fp;
     sig_RevsigDigest := EmptyString; sig_Revsig := None |}.

Definition ex_uid (digest : string) (sigs : list Signature) : UserId :=
  {| uid_ScopedDigest := digest; uid_Creation := 0; uid_Expiration := 0;
     uid_State := 0; uid_Packet := []; uid_PubkeyRFP := Reverse ex_fp;
     uid_Keywords := EmptyString; uid_SelfSignature := None;
     uid_Signatures := sigs |}.

Definition ex_uat (digest : string) (packet : list Byte.byte)
    (sigs : list Signature) : UserAttribute :=
  {| uat_ScopedDigest := digest; uat_Creation := 0; uat_Expiration := 0;
     uat_State := 0; uat_Packet := packet; uat_PubkeyRFP := Reverse ex_fp;
     uat_SelfSignature := None; uat_Signatures := sigs |}.

Definition ex_subkey (rfp : string) (sigs : list Signature) : Subkey :=
  {| sub_RFingerprint := rfp; sub_Creation := 0; sub_Expiration := 0;
     sub_State := 0; sub_Packet := []; sub_PubkeyRFP := Reverse ex_fp;
     sub_RevsigDigest := EmptyString; sub_Algorithm := 1; sub_BitLen := 2048;
     sub_Signatures := sigs |}.

Definition ex_pubkey (rfp : string) (sigs : list Signature) (uids : list UserId)
    (uats : list UserAttribute) (subkeys : list Subkey) : Pubkey :=
  {| pk_RFingerprint := rfp; pk_Creation := 0; pk_Expiration := 0;
     pk_State := 0; pk_Packet := []; pk_Ctime := 0; pk_Mtime := 0;
     pk_Md5 := EmptyString; pk_Sha256 := EmptyString;
     pk_RevsigDigest := EmptyString; pk_Algorithm := 1; pk_BitLen := 2048;
     pk_Signatures := sigs; pk_Subkeys := subkeys; pk_UserIds := uids;
     pk_UserAttributes := uats; pk_Revsig := None |}.

(** A derivation to run the merge with: a key is revoked (state 2) when
    a key revocation signature (type 0x20) is among its signatures, and
    valid (state 0) otherwise. *)
Definition ex_derivation : Derivation := {|
  derive_revsig := List.find (λ s, (packet_SignatureType (sig_SigType s) =? 0x20)%Z);
  derive_state := λ sigs self,
    if existsb (λ s, (packet_SignatureType (sig_SigType s) =? 0x20)%Z) sigs
    then 2 else 0 |}.

(** Two copies of one key: the stored one, and an incoming one with a
    self-signature on the UserId, one more UserId, a UserAttribute, one
    more subkey signature and a key revocation. *)
Definition ex_A : Pubkey :=
  ex_pubkey (Reverse ex_fp) [ex_sig "s1" 0x1f]
    [ex_uid "alice" []] [] [ex_subkey "k1" [ex_sig "b1" 0x18]].

Definition ex_B : Pubkey :=
  ex_pubkey (Reverse ex_fp) [ex_sig "s1" 0x1f; ex_sig "r1" 0x20]
    [ex_uid "alice" [ex_sig "c1" 0x13]; ex_uid "bob" []]
    [ex_uat "photo" [] []]
    [ex_subkey "k1" [ex_sig "b1" 0x18; ex_sig "b2" 0x28]].

(** Four packets to sort: two user ids, a signature and a public key. *)
Definition ex_packets : list packet_OpaquePacket :=
  [ mkOpaquePacket 13 [Byte.x62; Byte.x6f; Byte.x62];
    mkOpaquePacket 2 [Byte.x04; Byte.x13];
    mkOpaquePacket 13 [Byte.x61; Byte.x6c];
    mkOpaquePacket 6 [Byte.x04] ].

(** * Properties *)

(** ** Strings as lists of bytes *)

Lemma list_ascii_substring (s : string) (n m : nat) :
  list_ascii_of_string (substring n m s) = take m (drop n (list_ascii_of_string s)).
Proof.
  revert n m. induction s as [|c s IH]; intros n m.
  - destruct n, m; reflexivity.
  - destruct n as [|n].
    + destruct m as [|m]; [reflexivity|]. cbn. f_equal. apply (IH O m).
    + cbn. apply IH.
Qed.

Lemma length_list_ascii (s : string) :
  length (list_ascii_of_string s) = String.length s.
Proof. induction s; cbn; congruence. Qed.

Lemma string_eq_by_list (s t : string) :
  list_ascii_of_string s = list_ascii_of_string t → s = t.
Proof.
  intros E. rewrite <- (string_of_list_ascii_of_string s),
    <- (string_of_list_ascii_of_string t). now rewrite E.
Qed.

Lemma list_ascii_Reverse (s : string) :
  list_ascii_of_string (Reverse s) = rev (list_ascii_of_string s).
Proof. unfold Reverse. apply list_ascii_of_string_of_list_ascii. Qed.

Lemma Reverse_involutive (s : string) : Reverse (Reverse s) = s.
Proof.
  apply string_eq_by_list. rewrite !list_ascii_Reverse. apply rev_involutive.
Qed.

Lemma length_Reverse (s : string) : String.length (Reverse s) = String.length s.
Proof.
  rewrite <- !length_list_ascii, list_ascii_Reverse. apply length_rev.
Qed.

(** Un-reversing a prefix of the reversed string gives the suffix. *)
Lemma Reverse_prefix_Reverse (n : nat) (fp : string) :
  (n ≤ String.length fp)%nat →
  Reverse (substring 0 n (Reverse fp)) = last_chars n fp.
Proof.
  intros Hn. apply string_eq_by_list. unfold last_chars.
  rewrite list_ascii_Reverse, !list_ascii_substring, list_ascii_Reverse.
  rewrite drop_0. change (@take ascii) with (@firstn ascii).
  rewrite firstn_rev, rev_involutive, length_list_ascii.
  symmetry. apply take_ge. rewrite length_drop, length_list_ascii. lia.
Qed.

Lemma slice_to_Some (n : nat) (s : string) :
  (n ≤ String.length s)%nat → slice_to n s = Some (substring 0 n s).
Proof. intros Hn. unfold slice_to. now rewrite decide_True. Qed.

Lemma slice_to_None (n : nat) (s : string) :
  (String.length s < n)%nat → slice_to n s = None.
Proof. intros Hn. unfold slice_to. rewrite decide_False; [reflexivity | lia]. Qed.

Lemma length_last_chars (n : nat) (s : string) :
  (n ≤ String.length s)%nat → String.length (last_chars n s) = n.
Proof.
  intros Hn. unfold last_chars.
  rewrite <- length_list_ascii, list_ascii_substring, length_take, length_drop,
    length_list_ascii. lia.
Qed.

(** ** Key ids *)

(** C3.  When the stored [RFingerprint] of a Pubkey or Subkey is the
    reversal of a canonical hex fingerprint [fp] (at least 16
    characters), [KeyId] returns the last 16 characters of [fp] in
    canonical order and [ShortId] the last 8. *)
Theorem KeyId_ShortId_low_order (pubkey : Pubkey) (subkey : Subkey) (fp : string)
    (Hlen : (16 ≤ String.length fp)%nat) :
  (pk_RFingerprint pubkey = Reverse fp →
     Pubkey_KeyId pubkey = Some (last_chars 16 fp)
     ∧ Pubkey_ShortId pubkey = Some (last_chars 8 fp))
  ∧ (sub_RFingerprint subkey = Reverse fp →
     Subkey_KeyId subkey = Some (last_chars 16 fp)
     ∧ Subkey_ShortId subkey = Some (last_chars 8 fp)).
Proof.
  assert (H8 : (8 ≤ String.length fp)%nat) by lia.
  unfold Pubkey_KeyId, Pubkey_ShortId, Subkey_KeyId, Subkey_ShortId.
  split; intros ->;
    rewrite !slice_to_Some by (rewrite length_Reverse; lia); cbn;
    now rewrite !Reverse_prefix_Reverse.
Qed.

Lemma KeyId_ShortId_low_order_witness :
  (16 ≤ String.length ex_fp)%nat
  ∧ Pubkey_KeyId (ex_pubkey (Reverse ex_fp) [] [] [] []) = Some "89ABCDEF01234567"%string
  ∧ Pubkey_ShortId (ex_pubkey (Reverse ex_fp) [] [] [] []) = Some "01234567"%string
  ∧ Subkey_KeyId (ex_subkey (Reverse ex_fp) []) = Some "89ABCDEF01234567"%string
  ∧ Subkey_ShortId (ex_subkey (Reverse ex_fp) []) = Some "01234567"%string.
Proof.
  assert (Hlen : (16 ≤ String.length ex_fp)%nat) by (vm_compute; lia).
  destruct (KeyId_ShortId_low_order (ex_pubkey (Reverse ex_fp) [] [] [] [])
              (ex_subkey (Reverse ex_fp) []) ex_fp Hlen) as [Hpk Hsub].
  destruct (Hpk eq_refl) as [Hk Hs]. destruct (Hsub eq_refl) as [Hk' Hs'].
  split; [exact Hlen|].
  split; [exact Hk|]. split; [exact Hs|]. split; [exact Hk' | exact Hs'].
Defined.

(** The un-reversed prefix of length [n]: defined, and [n] characters
    long, exactly when the string has [n] characters. *)
Lemma prefix_view_in_bounds (n : nat) (s : string) :
  (n ≤ String.length s)%nat →
  ∃ v, Reverse <$> slice_to n s = Some v
       ∧ v = Reverse (substring 0 n s) ∧ String.length v = n.
Proof.
  intros Hn. rewrite slice_to_Some by exact Hn. eexists. split; [reflexivity|].
  split; [reflexivity|].
  rewrite length_Reverse, <- length_list_ascii, list_ascii_substring,
    length_take, length_drop, length_list_ascii. lia.
Qed.

Lemma prefix_view_out_of_range (n : nat) (s : string) :
  (String.length s < n)%nat → Reverse <$> slice_to n s = None.
Proof. intros Hn. now rewrite slice_to_None. Qed.

(** C10.  [KeyId] and [ShortId] slice [RFingerprint[:16]] and
    [RFingerprint[:8]] unchecked: with at least 16 (respectively 8)
    characters stored the slice is in bounds and the call returns the
    un-reversed prefix, 16 (8) characters long; with fewer the slice is
    out of range and the call panics. *)
Theorem KeyId_ShortId_partial (pubkey : Pubkey) (subkey : Subkey) :
  let rfp := pk_RFingerprint pubkey in
  let sfp := sub_RFingerprint subkey in
  ((16 ≤ String.length rfp)%nat →
     ∃ k, Pubkey_KeyId pubkey = Some k
          ∧ k = Reverse (substring 0 16 rfp) ∧ String.length k = 16%nat)
  ∧ ((8 ≤ String.length rfp)%nat →
     ∃ s, Pubkey_ShortId pubkey = Some s
          ∧ s = Reverse (substring 0 8 rfp) ∧ String.length s = 8%nat)
  ∧ ((String.length rfp < 16)%nat → Pubkey_KeyId pubkey = None)
  ∧ ((String.length rfp < 8)%nat → Pubkey_ShortId pubkey = None)
  ∧ ((16 ≤ String.length sfp)%nat →
     ∃ k, Subkey_KeyId subkey = Some k
          ∧ k = Reverse (substring 0 16 sfp) ∧ String.length k = 16%nat)
  ∧ ((8 ≤ String.length sfp)%nat →
     ∃ s, Subkey_ShortId subkey = Some s
          ∧ s = Reverse (substring 0 8 sfp) ∧ String.length s = 8%nat)
  ∧ ((String.length sfp < 16)%nat → Subkey_KeyId subkey = None)
  ∧ ((String.length sfp < 8)%nat → Subkey_ShortId subkey = None).
Proof.
  intros rfp sfp.
  unfold Pubkey_KeyId, Pubkey_ShortId, Subkey_KeyId, Subkey_ShortId.
  fold rfp sfp.
  repeat apply conj;
    first [apply prefix_view_in_bounds | apply prefix_view_out_of_range].
Qed.

Lemma KeyId_ShortId_partial_witness :
  ((16 ≤ String.length (Reverse ex_fp))%nat
   ∧ Pubkey_KeyId (ex_pubkey (Reverse ex_fp) [] [] [] []) ≠ None)
  ∧ ((String.length "76543210" < 16)%nat
     ∧ Pubkey_KeyId (ex_pubkey "76543210" [] [] [] []) = None)
  ∧ ((8 ≤ String.length "76543210")%nat
     ∧ ∃ s, Pubkey_ShortId (ex_pubkey "76543210" [] [] [] []) = Some s
            ∧ s = "01234567"%string)
  ∧ ((String.length "7654" < 8)%nat
     ∧ Subkey_ShortId (ex_subkey "7654" []) = None).
Proof.
  assert (H1 : (16 ≤ String.length (Reverse ex_fp))%nat) by (vm_compute; lia).
  assert (H2 : (String.length "76543210" < 16)%nat) by (vm_compute; lia).
  assert (H3 : (8 ≤ String.length "76543210")%nat) by (vm_compute; lia).
  assert (H4 : (String.length "7654" < 8)%nat) by (vm_compute; lia).
  destruct (KeyId_ShortId_partial (ex_pubkey (Reverse ex_fp) [] [] [] [])
              (ex_subkey "7654" [])) as (Hlong & _ & _ & _ & _ & _ & _ & Hsub).
  destruct (KeyId_ShortId_partial (ex_pubkey "76543210" [] [] [] [])
              (ex_subkey "7654" [])) as (_ & Hshort & Hout & _).
  split; [split; [exact H1|]|split; [split; [exact H2|]|split; [split; [exact H3|]|split; [exact H4|]]]].
  - destruct (Hlong H1) as (k & Hk & _). rewrite Hk. discriminate.
  - exact (Hout H2).
  - destruct (Hshort H3) as (s & Hs & Heq & _). exists s. split; [exact Hs | exact Heq].
  - exact (Hsub H4).
Defined.

(** ** Reversal *)

(** C9.  [Reverse] is an involution, so each view that un-reverses a
    stored field ([Fingerprint] of a Pubkey or Subkey, [IssuerKeyId] and
    [IssuerFingerprint] of a Signature) gives back the canonical string
    whose reversal was stored. *)
Theorem Reverse_involution_views (s : string) (pubkey : Pubkey) (subkey : Subkey)
    (sig : Signature) :
  Reverse (Reverse s) = s
  ∧ (pk_RFingerprint pubkey = Reverse s → Pubkey_Fingerprint pubkey = s)
  ∧ (sub_RFingerprint subkey = Reverse s → Subkey_Fingerprint subkey = s)
  ∧ (sig_RIssuerKeyId sig = Reverse s → Signature_IssuerKeyId sig = s)
  ∧ (sig_RIssuerFingerprint sig = Reverse s → Signature_IssuerFingerprint sig = s).
Proof.
  unfold Pubkey_Fingerprint, Subkey_Fingerprint, Signature_IssuerKeyId,
    Signature_IssuerFingerprint.
  repeat split; try intros ->; apply Reverse_involutive.
Qed.

Lemma Reverse_involution_views_witness :
  Reverse (Reverse ex_fp) = ex_fp
  ∧ Pubkey_Fingerprint (ex_pubkey (Reverse ex_fp) [] [] [] []) = ex_fp
  ∧ Subkey_Fingerprint (ex_subkey (Reverse ex_fp) []) = ex_fp
  ∧ Signature_IssuerFingerprint (ex_sig "d1" 0x13) = ex_fp.
Proof.
  destruct (Reverse_involution_views ex_fp (ex_pubkey (Reverse ex_fp) [] [] [] [])
              (ex_subkey (Reverse ex_fp) []) (ex_sig "d1" 0x13))
    as (Hrev & Hpk & Hsub & _ & Hsig).
  split; [exact Hrev|]. split; [exact (Hpk eq_refl)|].
  split; [exact (Hsub eq_refl) | exact (Hsig eq_refl)].
Defined.

(** ** Traversal *)

Section Visit.
Context {St : Type} (visitor : PacketVisitor St).

(** A loop over two lists in sequence. *)
Lemma range_Visit_app {A} (visit : A → St → St * option error) (xs ys : list A) st :
  range_Visit visit (xs ++ ys) st =
  match range_Visit visit xs st with
  | (st', Some err) => (st', Some err)
  | (st', None) => range_Visit visit ys st'
  end.
Proof.
  revert st. induction xs as [|x xs IH]; intros st; cbn; [reflexivity|].
  destruct (visit x st) as [st' [err|]]; [reflexivity | apply IH].
Qed.

(** A loop of sub-traversals is the loop over the concatenation. *)
Lemma range_Visit_bind {A} (visit : A → St → St * option error)
    (flat : A → list PacketRecord) (xs : list A) st :
  (∀ x st, visit x st = range_Visit visitor (flat x) st) →
  range_Visit visit xs st = range_Visit visitor (xs ≫= flat) st.
Proof.
  intros Hflat. revert st. induction xs as [|x xs IH]; intros st; cbn; [reflexivity|].
  rewrite range_Visit_app, Hflat.
  destruct (range_Visit visitor (flat x) st) as [st' [err|]]; [reflexivity | apply IH].
Qed.

Lemma range_Visit_signatures (sigs : list Signature) st :
  range_Visit (Signature_Visit visitor) sigs st
  = range_Visit visitor (PR_Signature <$> sigs) st.
Proof.
  revert st. induction sigs as [|sig sigs IH]; intros st; cbn; [reflexivity|].
  unfold Signature_Visit at 1.
  destruct (visitor (PR_Signature sig) st) as [st' [err|]]; [reflexivity | apply IH].
Qed.

Lemma UserId_Visit_preorder uid st :
  UserId_Visit visitor uid st = range_Visit visitor (UserId_preorder uid) st.
Proof.
  unfold UserId_Visit, UserId_preorder. cbn.
  destruct (visitor (PR_UserId uid) st) as [st' [err|]]; [reflexivity|].
  apply range_Visit_signatures.
Qed.

Lemma UserAttribute_Visit_preorder uat st :
  UserAttribute_Visit visitor uat st
  = range_Visit visitor (UserAttribute_preorder uat) st.
Proof.
  unfold UserAttribute_Visit, UserAttribute_preorder. cbn.
  destruct (visitor (PR_UserAttribute uat) st) as [st' [err|]]; [reflexivity|].
  apply range_Visit_signatures.
Qed.

Lemma Subkey_Visit_preorder subkey st :
  Subkey_Visit visitor subkey st = range_Visit visitor (Subkey_preorder subkey) st.
Proof.
  unfold Subkey_Visit, Subkey_preorder. cbn.
  destruct (visitor (PR_Subkey subkey) st) as [st' [err|]]; [reflexivity|].
  apply range_Visit_signatures.
Qed.

Lemma Pubkey_Visit_preorder pubkey st :
  Pubkey_Visit visitor pubkey st = range_Visit visitor (Pubkey_preorder pubkey) st.
Proof.
  unfold Pubkey_Visit, Pubkey_preorder. cbn.
  destruct (visitor (PR_Pubkey pubkey) st) as [st1 [err|]]; [reflexivity|].
  rewrite range_Visit_app, range_Visit_signatures.
  destruct (range_Visit visitor _ st1) as [st2 [err|]]; [reflexivity|].
  rewrite range_Visit_app.
  rewrite (range_Visit_bind _ UserId_preorder) by apply UserId_Visit_preorder.
  destruct (range_Visit visitor _ st2) as [st3 [err|]]; [reflexivity|].
  rewrite range_Visit_app.
  rewrite (range_Visit_bind _ UserAttribute_preorder)
    by apply UserAttribute_Visit_preorder.
  destruct (range_Visit visitor _ st3) as [st4 [err|]]; [reflexivity|].
  apply range_Visit_bind, Subkey_Visit_preorder.
Qed.

(** What a fail-fast loop over a flat list does. *)
Lemma range_Visit_flat (rs : list PacketRecord) st :
  match range_Visit visitor rs st with
  | (st', None) => visit_all visitor rs st = Some st'
  | (st', Some err) =>
    ∃ visited r rest st_r,
      rs = visited ++ r :: rest
      ∧ visit_all visitor visited st = Some st_r
      ∧ visitor r st_r = (st', Some err)
  end.
Proof.
  revert st. induction rs as [|r rs IH]; intros st; cbn; [reflexivity|].
  destruct (visitor r st) as [st1 [err|]] eqn:Hr.
  - exists [], r, rs, st. auto.
  - specialize (IH st1). destruct (range_Visit visitor rs st1) as [st' [err|]].
    + destruct IH as (visited & r' & rest & st_r & -> & Hall & Hr').
      exists (r :: visited), r', rest, st_r. cbn. rewrite Hr. auto.
    + exact IH.
Qed.

(** C6.  [Pubkey.Visit] applies the visitor along the fixed pre-order
    (the Pubkey, its Signatures, each UserId followed by its
    Signatures, each UserAttribute followed by its Signatures, each
    Subkey followed by its Signatures).  If every call returns nil, all
    records are visited, in that order, and nil is returned; otherwise
    the records before the first failing one are visited in order, the
    walk stops at the failing call and returns that call's error. *)
Theorem Pubkey_Visit_order (pubkey : Pubkey) (st : St) :
  match Pubkey_Visit visitor pubkey st with
  | (st', None) => visit_all visitor (Pubkey_preorder pubkey) st = Some st'
  | (st', Some err) =>
    ∃ visited r rest st_r,
      Pubkey_preorder pubkey = visited ++ r :: rest
      ∧ visit_all visitor visited st = Some st_r
      ∧ visitor r st_r = (st', Some err)
  end.
Proof. rewrite Pubkey_Visit_preorder. apply range_Visit_flat. Qed.

End Visit.

(** ** Self-signature resolution *)

Lemma first_match_find (p : Signature → bool) (sigs : list Signature) (s : Signature) :
  List.find p sigs = Some s ↔ first_match p sigs s.
Proof.
  unfold first_match. induction sigs as [|x sigs IH]; cbn.
  - split; [discriminate|]. intros (before & after & E & _).
    now destruct before.
  - destruct (p x) eqn:Hx.
    + split.
      * intros [= ->]. exists [], sigs. auto.
      * intros (before & after & E & Hs & Hbefore).
        destruct before as [|b before]; cbn in E.
        -- congruence.
        -- injection E as <- _. inversion Hbefore; congruence.
    + rewrite IH. split.
      * intros (before & after & -> & Hs & Hbefore).
        exists (x :: before), after. auto.
      * intros (before & after & E & Hs & Hbefore).
        destruct before as [|b before]; cbn in E.
        -- injection E as <- _. congruence.
        -- injection E as <- ->. inversion Hbefore. eauto.
Qed.

Lemma find_None_Forall (p : Signature → bool) (sigs : list Signature) :
  List.find p sigs = None ↔ Forall (λ x, p x = false) sigs.
Proof.
  induction sigs as [|x sigs IH]; cbn.
  - split; auto.
  - destruct (p x) eqn:Hx.
    + split; [discriminate|]. inversion 1; congruence.
    + rewrite IH. split; [auto | now inversion 1].
Qed.

Lemma UserId_SelfSignature_range_find (sigs : list Signature) :
  UserId_SelfSignature_range sigs = List.find is_positive_cert sigs.
Proof.
  induction sigs as [|x sigs IH]; cbn; [reflexivity|].
  unfold is_positive_cert at 1. change SigTypePositiveCert with 19.
  now destruct (_ =? 19)%Z.
Qed.

Lemma Pubkey_SelfSignature_range_find (sigs : list Signature) :
  Pubkey_SelfSignature_range sigs = List.find is_key_self_sig sigs.
Proof.
  induction sigs as [|x sigs IH]; cbn; [reflexivity|].
  unfold is_key_self_sig at 1. change SigTypePositiveCert with 19.
  change (packet_SignatureType 25) with 25.
  destruct (_ =? 19)%Z; [reflexivity|]. now destruct (_ =? 25)%Z.
Qed.

(** C7.  [UserId.SelfSignature] returns the first signature, in stored
    order, whose type is positive certification (0x13);
    [Pubkey.SelfSignature] the first of the key's own signatures whose
    type is positive certification or 0x19; each returns nil exactly
    when no signature of the list has such a type. *)
Theorem SelfSignature_first_match (uid : UserId) (pk : Pubkey) :
  (∀ s, UserId_SelfSignature uid = Some s
        ↔ first_match is_positive_cert (uid_Signatures uid) s)
  ∧ (UserId_SelfSignature uid = None
     ↔ Forall (λ x, is_positive_cert x = false) (uid_Signatures uid))
  ∧ (∀ s, Pubkey_SelfSignature pk = Some s
          ↔ first_match is_key_self_sig (pk_Signatures pk) s)
  ∧ (Pubkey_SelfSignature pk = None
     ↔ Forall (λ x, is_key_self_sig x = false) (pk_Signatures pk)).
Proof.
  unfold UserId_SelfSignature, Pubkey_SelfSignature.
  rewrite UserId_SelfSignature_range_find, Pubkey_SelfSignature_range_find.
  split; [intros s; apply first_match_find|].
  split; [apply find_None_Forall|].
  split; [intros s; apply first_match_find | apply find_None_Forall].
Qed.

Lemma SelfSignature_first_match_witness :
  let certs := [ex_sig "d0" 0x10; ex_sig "d1" 0x13; ex_sig "d2" 0x19; ex_sig "d3" 0x13] in
  let revs := [ex_sig "d4" 0x20; ex_sig "d2" 0x19; ex_sig "d1" 0x13] in
  UserId_SelfSignature (ex_uid "u1" certs) = Some (ex_sig "d1" 0x13)
  ∧ UserId_SelfSignature (ex_uid "u2" [ex_sig "d0" 0x10; ex_sig "d2" 0x19]) = None
  ∧ Pubkey_SelfSignature (ex_pubkey (Reverse ex_fp) revs [] [] []) = Some (ex_sig "d2" 0x19)
  ∧ Pubkey_SelfSignature (ex_pubkey (Reverse ex_fp) [ex_sig "d4" 0x20] [] [] []) = None.
Proof.
  intros certs revs.
  split; [|split; [|split]].
  - apply (SelfSignature_first_match (ex_uid "u1" certs) (ex_pubkey (Reverse ex_fp) revs [] [] [])).
    exists [ex_sig "d0" 0x10], [ex_sig "d2" 0x19; ex_sig "d3" 0x13].
    split; [reflexivity|]. split; [reflexivity|]. repeat constructor.
  - apply (SelfSignature_first_match (ex_uid "u2" [ex_sig "d0" 0x10; ex_sig "d2" 0x19])
             (ex_pubkey (Reverse ex_fp) revs [] [] [])).
    repeat constructor.
  - apply (SelfSignature_first_match (ex_uid "u1" certs) (ex_pubkey (Reverse ex_fp) revs [] [] [])).
    exists [ex_sig "d4" 0x20], [ex_sig "d1" 0x13].
    split; [reflexivity|]. split; [reflexivity|]. repeat constructor.
  - apply (SelfSignature_first_match (ex_uid "u1" certs)
             (ex_pubkey (Reverse ex_fp) [ex_sig "d4" 0x20] [] [] [])).
    repeat constructor.
Defined.

(** The conversion to [packet.SignatureType] is to eight bits: a stored
    [SigType] outside 0..255 is matched on its low byte. *)
Example SelfSignature_low_byte :
  UserId_SelfSignature (ex_uid "u1" [ex_sig "d0" 0x113]) = Some (ex_sig "d0" 0x113).
Proof. reflexivity. Qed.

(** A visitor that logs the identity of what it visits and fails on the
    first UserAttribute. *)
Example Pubkey_Visit_example :
  let visitor : PacketVisitor (list string) := λ r log,
    match r with
    | PR_Pubkey p => (log ++ [pk_RFingerprint p], None)
    | PR_Signature s => (log ++ [sig_ScopedDigest s], None)
    | PR_UserId u => (log ++ [uid_ScopedDigest u], None)
    | PR_UserAttribute a => (log ++ [uat_ScopedDigest a], Some (LibError "stop"))
    | PR_Subkey k => (log ++ [sub_RFingerprint k], None)
    end in
  let key := ex_pubkey "K" [ex_sig "s1" 0x13; ex_sig "s2" 0x20]
               [ex_uid "u1" [ex_sig "s3" 0x13]; ex_uid "u2" []]
               [ex_uat "a1" [] [ex_sig "s4" 0x13]]
               [ex_subkey "k1" [ex_sig "s5" 0x18]] in
  Pubkey_Visit visitor key []
  = (["K"; "s1"; "s2"; "u1"; "s3"; "u2"; "a1"]%string, Some (LibError "stop"))
  ∧ Pubkey_Visit visitor (ex_pubkey "K" [ex_sig "s1" 0x13] [ex_uid "u1" [ex_sig "s3" 0x13]]
                            [] [ex_subkey "k1" [ex_sig "s5" 0x18]]) []
    = (["K"; "s1"; "u1"; "s3"; "k1"; "s5"]%string, None).
Proof. split; reflexivity. Qed.

(** ** Image extraction *)

Section Images.
Context `{PacketLib}.

Lemma GetJpegData_loop (subpackets : list packet_OpaqueSubpacket)
    (result : list (list Byte.byte)) :
  foldl GetJpegData_step result subpackets
  = result ++ ((λ sp, drop ImageSubOffset (sp_Contents sp))
               <$> filter is_image subpackets).
Proof.
  revert result. induction subpackets as [|sp sps IH]; intros result; cbn.
  - now rewrite app_nil_r.
  - rewrite IH. unfold GetJpegData_step, filter. cbn.
    destruct (decide (is_image sp)) as [[Ht Hl]|Hno].
    + rewrite Ht, Z.eqb_refl, bool_decide_true by exact Hl. cbn.
      now rewrite <- app_assoc.
    + destruct (Z.eqb_spec (sp_SubType sp) ImageSubType) as [Ht|Ht]; [|reflexivity].
      rewrite bool_decide_false; [reflexivity|].
      intros Hl. apply Hno. now split.
Qed.

(** C8.  [GetJpegData] yields, in order, one buffer for each
    subpacket whose type is [ImageSubType] and whose content is longer
    than [ImageSubOffset] = 16 bytes, that buffer being the content
    after the first 16 bytes; every other subpacket (another type, or
    16 bytes or fewer) yields nothing; when the opaque packet or its
    subpackets do not decode the result is empty and no error is
    returned. *)
Theorem GetJpegData_images (uat : UserAttribute) :
  (∀ err, UserAttribute_GetPacket uat = inl err → UserAttribute_GetJpegData uat = [])
  ∧ (∀ op err,
       UserAttribute_GetPacket uat = inr op →
       packet_OpaqueSubpackets (op_Contents op) = inl err →
       UserAttribute_GetJpegData uat = [])
  ∧ (∀ op subpackets,
       UserAttribute_GetPacket uat = inr op →
       packet_OpaqueSubpackets (op_Contents op) = inr subpackets →
       UserAttribute_GetJpegData uat
       = (λ sp, drop 16 (sp_Contents sp))
         <$> filter (λ sp, sp_SubType sp = 1 ∧ (16 < length (sp_Contents sp))%nat)
               subpackets).
Proof.
  unfold UserAttribute_GetJpegData.
  split; [|split].
  - now intros err ->.
  - now intros op err -> ->.
  - intros op subpackets -> ->. now rewrite GetJpegData_loop.
Qed.

End Images.

Lemma GetJpegData_images_witness :
  UserAttribute_GetJpegData (H:=ex_lib) (ex_uat "a1" ex_uat_packet []) = [[Byte.xff; Byte.xd8]]
  ∧ UserAttribute_GetJpegData (H:=ex_lib) (ex_uat "a2" [] []) = []
  ∧ UserAttribute_GetJpegData (H:=ex_lib) (ex_uat "a3" [Byte.x11; Byte.x05; Byte.x01] []) = [].
Proof.
  split; [|split].
  - destruct (GetJpegData_images (H:=ex_lib) (ex_uat "a1" ex_uat_packet []))
      as (_ & _ & Hok).
    rewrite (Hok (mkOpaquePacket 17 (tail ex_uat_packet))
               [mkOpaqueSubpacket 1 (replicate 16 Byte.x00 ++ [Byte.xff; Byte.xd8]);
                mkOpaqueSubpacket 1 [Byte.xaa; Byte.xbb];
                mkOpaqueSubpacket 2 [Byte.xcc; Byte.xdd]] eq_refl eq_refl).
    reflexivity.
  - destruct (GetJpegData_images (H:=ex_lib) (ex_uat "a2" [] [])) as (Herr & _).
    exact (Herr (LibError "EOF") eq_refl).
  - destruct (GetJpegData_images (H:=ex_lib) (ex_uat "a3" [Byte.x11; Byte.x05; Byte.x01] []))
      as (_ & Herr & _).
    exact (Herr (mkOpaquePacket 17 [Byte.x05; Byte.x01]) (LibError "subpacket truncated")
             eq_refl eq_refl).
Defined.

(** ** Setting packets *)

Lemma length_hex_EncodeToString (src : list Byte.byte) :
  String.length (hex_EncodeToString src) = (2 * length src)%nat.
Proof.
  induction src as [|v src IH]; [reflexivity|].
  simpl String.length. rewrite IH. simpl length. lia.
Qed.

Section Setters.
Context `{PacketLib}.

Lemma Signature_setPacketV4_error sig s sig' err :
  Signature_setPacketV4 sig s = (sig', Some err) → sig' = sig.
Proof.
  unfold Signature_setPacketV4.
  destruct (Signature_Serialize s); [congruence|].
  destruct (pkt_IssuerKeyId s); congruence.
Qed.

Lemma Signature_setPacketV4_ok sig s sig' :
  Signature_setPacketV4 sig s = (sig', None) →
  ∃ buf keyid,
    Signature_Serialize s = inr buf ∧ pkt_IssuerKeyId s = Some keyid
    ∧ sig_Packet sig' = buf
    ∧ sig_RIssuerKeyId sig' = Reverse (hex_EncodeToString (BigEndian_PutUint64 keyid)).
Proof.
  unfold Signature_setPacketV4.
  destruct (Signature_Serialize s) as [e|buf]; [congruence|].
  destruct (pkt_IssuerKeyId s) as [keyid|]; [|congruence].
  intros E. apply (f_equal fst) in E. cbn [fst] in E. subst sig'.
  exists buf, keyid. repeat split; reflexivity.
Qed.

(** C5.  A signature packet without an issuer key id is refused by
    [SetPacket] with an error and the Signature is returned as it
    was; whenever [SetPacket] succeeds the packet had an issuer key id
    and the stored [RIssuerKeyId] is its 16 hex characters, reversed
    (so not empty); whenever [SetPacket] fails no field has changed. *)
Theorem Signature_issuer_required (sig : Signature) (s : packet_Signature) :
  (pkt_IssuerKeyId s = None →
     ∃ err, Signature_SetPacket sig (P_Signature s) = (sig, Some err)
            ∧ Signature_setPacketV4 sig s = (sig, Some err))
  ∧ (∀ p sig', Signature_SetPacket sig p = (sig', None) →
       String.length (sig_RIssuerKeyId sig') = 16%nat
       ∧ sig_RIssuerKeyId sig' ≠ EmptyString
       ∧ ∃ s' keyid, p = P_Signature s' ∧ pkt_IssuerKeyId s' = Some keyid)
  ∧ (∀ p sig' err, Signature_SetPacket sig p = (sig', Some err) → sig' = sig).
Proof.
  split; [|split].
  - intros Hnone. unfold Signature_SetPacket, Signature_SetSignature,
      Signature_setPacketV4. rewrite Hnone.
    destruct (Signature_Serialize s) as [e|buf]; eauto.
  - intros p sig'. unfold Signature_SetPacket, Signature_SetSignature.
    destruct p as [pk|s'|u|op]; try congruence.
    intros (buf & keyid & _ & Hid & _ & Hr)%Signature_setPacketV4_ok.
    assert (Hlen : String.length (sig_RIssuerKeyId sig') = 16%nat).
    { rewrite Hr, length_Reverse, length_hex_EncodeToString. reflexivity. }
    split; [exact Hlen|]. split; [|eauto].
    intros Hempty. rewrite Hempty in Hlen. discriminate.
  - intros p sig' err. unfold Signature_SetPacket, Signature_SetSignature.
    destruct p as [pk|s'|u|op]; try congruence.
    apply Signature_setPacketV4_error.
Qed.

Lemma Pubkey_SetPublicKey_error pubkey pk pubkey' err :
  Pubkey_SetPublicKey pubkey pk = (pubkey', Some err) → pubkey' = pubkey.
Proof.
  unfold Pubkey_SetPublicKey.
  destruct (PublicKey_Serialize pk); [congruence|].
  destruct (PublicKey_BitLength pk); [congruence|].
  destruct (pkt_IsSubkey pk); congruence.
Qed.

Lemma Subkey_SetPublicKey_error subkey pk subkey' err :
  Subkey_SetPublicKey subkey pk = (subkey', Some err) → subkey' = subkey.
Proof.
  unfold Subkey_SetPublicKey.
  destruct (PublicKey_Serialize pk); [congruence|].
  destruct (PublicKey_BitLength pk); [congruence|].
  destruct (pkt_IsSubkey pk); cbn; congruence.
Qed.

(** C4, as the code has it.  Assigning a subkey packet to a Pubkey, or
    a primary-key packet to a Subkey, through [SetPacket] or
    [SetPublicKey] always returns an error and the entity as it was.
    Which error: the one of [Serialize] if the packet does not
    serialize; otherwise the one of [BitLength] if the packet has no
    bit length; otherwise the packet-type error [InvalidPacketErr].
    More generally a [SetPacket] on a Pubkey or Subkey that returns an
    error has changed no field. *)
Theorem type_guard_no_partial_state (pubkey : Pubkey) (subkey : Subkey)
    (pk : packet_PublicKey) :
  (pkt_IsSubkey pk = true →
     ∃ err, Pubkey_SetPublicKey pubkey pk = (pubkey, Some err)
            ∧ Pubkey_SetPacket pubkey (P_PublicKey pk) = (pubkey, Some err)
            ∧ (∀ e, PublicKey_Serialize pk = inl e → err = e)
            ∧ (∀ buf e, PublicKey_Serialize pk = inr buf →
                 PublicKey_BitLength pk = inl e → err = e)
            ∧ (∀ buf bitLen, PublicKey_Serialize pk = inr buf →
                 PublicKey_BitLength pk = inr bitLen → err = InvalidPacketErr))
  ∧ (pkt_IsSubkey pk = false →
     ∃ err, Subkey_SetPublicKey subkey pk = (subkey, Some err)
            ∧ Subkey_SetPacket subkey (P_PublicKey pk) = (subkey, Some err)
            ∧ (∀ e, PublicKey_Serialize pk = inl e → err = e)
            ∧ (∀ buf e, PublicKey_Serialize pk = inr buf →
                 PublicKey_BitLength pk = inl e → err = e)
            ∧ (∀ buf bitLen, PublicKey_Serialize pk = inr buf →
                 PublicKey_BitLength pk = inr bitLen → err = InvalidPacketErr))
  ∧ (∀ p pubkey' err, Pubkey_SetPacket pubkey p = (pubkey', Some err) → pubkey' = pubkey)
  ∧ (∀ p subkey' err, Subkey_SetPacket subkey p = (subkey', Some err) → subkey' = subkey).
Proof.
  split; [|split; [|split]].
  - intros Hsub. unfold Pubkey_SetPacket, Pubkey_SetPublicKey. rewrite Hsub.
    destruct (PublicKey_Serialize pk) as [e|buf].
    { exists e. repeat split; congruence. }
    destruct (PublicKey_BitLength pk) as [e|bitLen].
    { exists e. repeat split; congruence. }
    exists InvalidPacketErr. repeat split; congruence.
  - intros Hsub. unfold Subkey_SetPacket, Subkey_SetPublicKey. rewrite Hsub.
    destruct (PublicKey_Serialize pk) as [e|buf].
    { exists e. repeat split; congruence. }
    destruct (PublicKey_BitLength pk) as [e|bitLen].
    { exists e. repeat split; congruence. }
    exists InvalidPacketErr. repeat split; congruence.
  - intros p pubkey' err. unfold Pubkey_SetPacket.
    destruct p; try congruence. apply Pubkey_SetPublicKey_error.
  - intros p subkey' err. unfold Subkey_SetPacket.
    destruct p; try congruence. apply Subkey_SetPublicKey_error.
Qed.

End Setters.

Lemma Signature_issuer_required_witness :
  let unsigned := mkPacketSignature 0x13 1000 None None [Byte.x04] in
  let signed := mkPacketSignature 0x13 1000 (Some 0x0123456789abcdef) (Some 60) [Byte.x04] in
  let sig := ex_sig "d1" 0x10 in
  pkt_IssuerKeyId unsigned = None
  ∧ (∃ err, Signature_SetPacket (H:=ex_lib) sig (P_Signature unsigned) = (sig, Some err))
  ∧ Signature_SetPacket (H:=ex_lib) sig (P_Signature unsigned) = (sig, Some ErrMissingIssuerKeyId)
  ∧ snd (Signature_SetPacket (H:=ex_lib) sig (P_Signature signed)) = None
  ∧ sig_RIssuerKeyId (fst (Signature_SetPacket (H:=ex_lib) sig (P_Signature signed)))
    = "fedcba9876543210"%string
  ∧ sig_RIssuerKeyId (fst (Signature_SetPacket (H:=ex_lib) sig (P_Signature signed)))
    ≠ EmptyString.
Proof.
  intros unsigned signed sig.
  destruct (Signature_issuer_required (H:=ex_lib) sig unsigned) as (Hmissing & Hok & _).
  split; [reflexivity|].
  split; [destruct (Hmissing eq_refl) as (err & Herr & _); exists err; exact Herr|].
  split; [vm_compute; reflexivity|].
  split; [vm_compute; reflexivity|].
  split; [vm_compute; reflexivity|].
  apply (Hok (P_Signature signed)). vm_compute. reflexivity.
Defined.

(** A subkey packet of an algorithm the library has no bit length for
    (19, ECDSA), assigned to a Pubkey: the error returned is the one of
    [BitLength], which the method checks before the subkey flag. *)
Lemma type_guard_error_kind_counterexample :
  let pk := mkPublicKey 1000 19 true [Byte.x01; Byte.x02] in
  let pubkey := ex_pubkey (Reverse ex_fp) [] [] [] [] in
  pkt_IsSubkey pk = true
  ∧ Pubkey_SetPacket (H:=ex_lib) pubkey (P_PublicKey pk)
    = (pubkey, Some (LibError "bad public-key algorithm"))
  ∧ Pubkey_SetPublicKey (H:=ex_lib) pubkey pk
    = (pubkey, Some (LibError "bad public-key algorithm"))
  ∧ is_packet_type_error (LibError "bad public-key algorithm") = false.
Proof. repeat split. Qed.

Lemma type_guard_no_partial_state_witness :
  let sub_pk := mkPublicKey 1000 1 true [Byte.x01; Byte.x02] in
  let prim_pk := mkPublicKey 1000 1 false [Byte.x01; Byte.x02] in
  let ecdsa_pk := mkPublicKey 1000 19 true [Byte.x01; Byte.x02] in
  let pubkey := ex_pubkey (Reverse ex_fp) [] [] [] [] in
  let subkey := ex_subkey (Reverse ex_fp) [] in
  (pkt_IsSubkey sub_pk = true
   ∧ ∃ err, Pubkey_SetPacket (H:=ex_lib) pubkey (P_PublicKey sub_pk) = (pubkey, Some err)
            ∧ err = InvalidPacketErr)
  ∧ (pkt_IsSubkey prim_pk = false
     ∧ ∃ err, Subkey_SetPacket (H:=ex_lib) subkey (P_PublicKey prim_pk) = (subkey, Some err)
              ∧ err = InvalidPacketErr)
  ∧ (pkt_IsSubkey ecdsa_pk = true
     ∧ ∃ err, Pubkey_SetPacket (H:=ex_lib) pubkey (P_PublicKey ecdsa_pk) = (pubkey, Some err)
              ∧ err = LibError "bad public-key algorithm").
Proof.
  intros sub_pk prim_pk ecdsa_pk pubkey subkey.
  split; [|split]; (split; [reflexivity|]).
  - destruct (type_guard_no_partial_state (H:=ex_lib) pubkey subkey sub_pk) as (Hp & _).
    destruct (Hp eq_refl) as (err & _ & Hset & _ & _ & Herr).
    exists err. split; [exact Hset|].
    exact (Herr _ _ eq_refl eq_refl).
  - destruct (type_guard_no_partial_state (H:=ex_lib) pubkey subkey prim_pk) as (_ & Hs & _).
    destruct (Hs eq_refl) as (err & _ & Hset & _ & _ & Herr).
    exists err. split; [exact Hset|].
    exact (Herr _ _ eq_refl eq_refl).
  - destruct (type_guard_no_partial_state (H:=ex_lib) pubkey subkey ecdsa_pk) as (Hp & _).
    destruct (Hp eq_refl) as (err & _ & Hset & _ & Herr & _).
    exists err. split; [exact Hset|].
    exact (Herr _ _ eq_refl eq_refl).
Defined.

(** ** Stored packets read back *)

Lemma Subkey_GetPacket_never_returns `{PacketLib}
    (as_bytes : error + packet_Packet → list Byte.byte) (fuel : nat) (subkey : Subkey) :
  Subkey_GetPacket as_bytes fuel subkey = None
  ∧ Subkey_GetPublicKey as_bytes fuel subkey = None.
Proof.
  induction fuel as [|fuel [IHp IHk]]; [split; reflexivity|].
  split; cbn; [now rewrite IHk | now rewrite IHp].
Qed.

(** C2, on the code.  The round trip does not hold for every entity:
    - [Subkey.GetPacket] and [Subkey.GetPublicKey] call each other
      without reaching the stored bytes, so the call returns within no
      number of nested calls, whatever was set;
    - [UserId.GetPacket] does not read the UserId it is called on: its
      result is the same for any two UserIds.  In the small instance, a
      UserId whose [SetPacket] succeeded (its stored bytes decode to the
      packet that was set) next to a Pubkey with no packet bytes:
      [GetPacket] panics on the failed read. *)
Theorem GetPacket_after_SetPacket_fails :
  (∀ (L : PacketLib) as_bytes fuel subkey,
     Subkey_GetPacket as_bytes fuel subkey = None
     ∧ Subkey_GetPublicKey as_bytes fuel subkey = None)
  ∧ (∀ (L : PacketLib) pubkey uid uid',
       UserId_GetPacket pubkey uid = UserId_GetPacket pubkey uid')
  ∧ (let u := mkPacketUserId "alice" in
     let pubkey := ex_pubkey (Reverse ex_fp) [] [] [] [] in
     ∃ uid', UserId_SetPacket (H:=ex_lib) (ex_uid "u1" []) (P_UserId u) = (uid', None)
             ∧ packet_Read (PacketLib:=ex_lib) (uid_Packet uid') = inr (P_UserId u)
             ∧ UserId_GetPacket (H:=ex_lib) pubkey uid' = None)
  ∧ (let pk := mkPublicKey 0 1 true [Byte.x01; Byte.x02] in
     ∃ subkey', Subkey_SetPacket (H:=ex_lib) (ex_subkey (Reverse ex_fp) []) (P_PublicKey pk)
                = (subkey', None)
                ∧ packet_Read (PacketLib:=ex_lib) (sub_Packet subkey') = inr (P_PublicKey pk)
                ∧ ∀ as_bytes fuel,
                    Subkey_GetPacket (H:=ex_lib) as_bytes fuel subkey' = None).
Proof.
  split; [intros; apply Subkey_GetPacket_never_returns|].
  split; [reflexivity|].
  split.
  - eexists. split; [reflexivity|]. split; reflexivity.
  - eexists. split; [reflexivity|]. split; [reflexivity|].
    intros. apply Subkey_GetPacket_never_returns.
Qed.

(** ** Merge *)

Lemma elem_of_signature_ids (d : string) (sigs : list Signature) :
  d ∈ signature_ids sigs ↔ ∃ s, s ∈ sigs ∧ sig_ScopedDigest s = d.
Proof.
  unfold signature_ids. rewrite elem_of_list_to_set, list_elem_of_fmap.
  naive_solver.
Qed.

Lemma has_signature_true (sigs : list Signature) (s : Signature) :
  has_signature sigs s = true ↔ sig_ScopedDigest s ∈ signature_ids sigs.
Proof.
  unfold has_signature, signature_ids.
  now rewrite bool_decide_eq_true, elem_of_list_to_set.
Qed.

Lemma signature_ids_nil : signature_ids [] = ∅.
Proof. reflexivity. Qed.

Lemma signature_ids_cons (s : Signature) (l : list Signature) :
  signature_ids (s :: l) = {[sig_ScopedDigest s]} ∪ signature_ids l.
Proof. reflexivity. Qed.

Section MergeSignable.
Context {A : Type} `{Signable A}.

Lemma child_ids_nil : child_ids (A:=A) [] = ∅.
Proof. reflexivity. Qed.

Lemma child_ids_cons (u : A) (l : list A) :
  child_ids (u :: l) = {[identity u]} ∪ child_ids l.
Proof. reflexivity. Qed.

Lemma child_signature_ids_nil : child_signature_ids (A:=A) [] = ∅.
Proof. reflexivity. Qed.

Lemma elem_of_child_ids (i : string) (l : list A) :
  i ∈ child_ids l ↔ ∃ e, e ∈ l ∧ identity e = i.
Proof.
  unfold child_ids. rewrite elem_of_list_to_set, list_elem_of_fmap.
  naive_solver.
Qed.

Lemma elem_of_child_signature_ids (i d : string) (l : list A) :
  (i, d) ∈ child_signature_ids l
  ↔ ∃ e, e ∈ l ∧ identity e = i ∧ d ∈ signature_ids (signatures e).
Proof.
  unfold child_signature_ids.
  rewrite elem_of_list_to_set, list_elem_of_bind.
  setoid_rewrite list_elem_of_fmap. setoid_rewrite elem_of_signature_ids.
  naive_solver.
Qed.

(** Rule 1 on one entity. *)
Lemma identity_merge_signature (e : A) (s : Signature) :
  identity (merge_signature e s) = identity e.
Proof.
  unfold merge_signature.
  destruct (has_signature _ _); [reflexivity | apply identity_AddSignature].
Qed.

Lemma signature_ids_merge_signature (e : A) (s : Signature) :
  signature_ids (signatures (merge_signature e s))
  = signature_ids (signatures e) ∪ {[sig_ScopedDigest s]}.
Proof.
  unfold merge_signature.
  destruct (has_signature (signatures e) s) eqn:Hhas.
  - apply has_signature_true in Hhas. set_solver.
  - rewrite signatures_AddSignature. unfold signature_ids.
    rewrite fmap_app, list_to_set_app_L. cbn. set_solver.
Qed.

Lemma identity_merge_signatures (e : A) (incoming : list Signature) :
  identity (merge_signatures e incoming) = identity e.
Proof.
  unfold merge_signatures. revert e.
  induction incoming as [|s l IH]; intros e; cbn; [reflexivity|].
  now rewrite IH, identity_merge_signature.
Qed.

Lemma signature_ids_merge_signatures (e : A) (incoming : list Signature) :
  signature_ids (signatures (merge_signatures e incoming))
  = signature_ids (signatures e) ∪ signature_ids incoming.
Proof.
  unfold merge_signatures. revert e.
  induction incoming as [|s l IH]; intros e; cbn [foldl].
  - rewrite signature_ids_nil. set_solver.
  - rewrite IH, signature_ids_merge_signature, signature_ids_cons. set_solver.
Qed.

(** Nothing is added when every incoming digest is already there. *)
Lemma merge_signatures_known (e : A) (incoming : list Signature) :
  signature_ids incoming ⊆ signature_ids (signatures e) →
  merge_signatures e incoming = e.
Proof.
  unfold merge_signatures.
  induction incoming as [|s l IH]; intros Hsub; cbn; [reflexivity|].
  assert (Hs : has_signature (signatures e) s = true).
  { apply has_signature_true, Hsub, elem_of_signature_ids.
    exists s. split; [left | reflexivity]. }
  unfold merge_signature at 2. rewrite Hs. apply IH.
  intros d Hd. apply Hsub. apply elem_of_signature_ids in Hd as (s' & Hin & <-).
  apply elem_of_signature_ids. exists s'. split; [now right | reflexivity].
Qed.

Lemma merge_signatures_self (e : A) : merge_signatures e (signatures e) = e.
Proof. now apply merge_signatures_known. Qed.

(** Rules 2 and 3: one incoming entity. *)
Lemma identities_merge_child (acc : list A) (u : A) :
  identity u ∈ child_ids acc →
  identity <$> merge_child acc u = identity <$> acc.
Proof.
  intros Hin. unfold merge_child.
  rewrite bool_decide_true by (now apply elem_of_list_to_set in Hin).
  rewrite <- list_fmap_compose. apply list_fmap_ext. intros _ e _. unfold compose.
  destruct (bool_decide (identity e = identity u));
    [apply identity_merge_signatures | reflexivity].
Qed.

Lemma child_ids_merge_child (acc : list A) (u : A) :
  child_ids (merge_child acc u) = child_ids acc ∪ {[identity u]}.
Proof.
  destruct (decide (identity u ∈ child_ids acc)) as [Hin|Hnew].
  - unfold child_ids at 1. rewrite identities_merge_child by exact Hin.
    fold (child_ids acc). set_solver.
  - unfold merge_child.
    rewrite bool_decide_false
      by (intros Hin; apply Hnew; now apply elem_of_list_to_set).
    unfold child_ids. rewrite fmap_app, list_to_set_app_L. cbn. set_solver.
Qed.

Lemma child_signature_ids_merge_child (acc : list A) (u : A) :
  child_signature_ids (merge_child acc u)
  = child_signature_ids acc ∪ child_signature_ids [u].
Proof.
  apply set_eq. intros [i d].
  rewrite elem_of_union, !elem_of_child_signature_ids.
  unfold merge_child. case_bool_decide as Hin.
  - setoid_rewrite list_elem_of_fmap. split.
    + intros (e' & (e & -> & He) & Hi & Hd).
      case_bool_decide as Hsame.
      * rewrite identity_merge_signatures in Hi.
        rewrite signature_ids_merge_signatures in Hd.
        apply elem_of_union in Hd as [Hd|Hd].
        -- left. eauto.
        -- right. exists u. split; [left|]. split; [congruence | exact Hd].
      * left. eauto.
    + intros [(e & He & Hi & Hd) | (u' & Hu & Hi & Hd)].
      * exists (if bool_decide (identity e = identity u)
                then merge_signatures e (signatures u) else e).
        split; [eauto|]. case_bool_decide.
        -- rewrite identity_merge_signatures, signature_ids_merge_signatures.
           split; [exact Hi | set_solver].
        -- auto.
      * apply list_elem_of_singleton in Hu as ->.
        apply list_elem_of_fmap in Hin as (e & Hid & He).
        exists (merge_signatures e (signatures u)).
        split.
        -- exists e. split; [|exact He]. now rewrite bool_decide_true.
        -- rewrite identity_merge_signatures, signature_ids_merge_signatures.
           split; [congruence | set_solver].
  - setoid_rewrite elem_of_app. naive_solver.
Qed.

(** Rules 2 and 3: the whole incoming list. *)
Lemma child_ids_merge_children (existing incoming : list A) :
  child_ids (merge_children existing incoming)
  = child_ids existing ∪ child_ids incoming.
Proof.
  unfold merge_children. revert existing.
  induction incoming as [|u l IH]; intros existing; cbn [foldl].
  - rewrite child_ids_nil. set_solver.
  - rewrite IH, child_ids_merge_child, child_ids_cons. set_solver.
Qed.

Lemma child_signature_ids_cons (u : A) (l : list A) :
  child_signature_ids (u :: l) = child_signature_ids [u] ∪ child_signature_ids l.
Proof.
  unfold child_signature_ids. change (u :: l) with ([u] ++ l).
  now rewrite bind_app, list_to_set_app_L.
Qed.

Lemma child_signature_ids_merge_children (existing incoming : list A) :
  child_signature_ids (merge_children existing incoming)
  = child_signature_ids existing ∪ child_signature_ids incoming.
Proof.
  unfold merge_children. revert existing.
  induction incoming as [|u l IH]; intros existing; cbn [foldl].
  - rewrite child_signature_ids_nil. set_solver.
  - rewrite IH, child_signature_ids_merge_child, (child_signature_ids_cons u l).
    set_solver.
Qed.

(** Merging entities whose identities are all known adds no entity. *)
Lemma identities_merge_children_known (existing incoming : list A) :
  child_ids incoming ⊆ child_ids existing →
  identity <$> merge_children existing incoming = identity <$> existing.
Proof.
  unfold merge_children. revert existing.
  induction incoming as [|u l IH]; intros existing Hsub; cbn; [reflexivity|].
  assert (Hu : identity u ∈ child_ids existing).
  { apply Hsub, elem_of_child_ids. exists u. split; [left | reflexivity]. }
  rewrite IH.
  - now apply identities_merge_child.
  - rewrite child_ids_merge_child. intros i Hi. apply elem_of_union. left.
    apply Hsub. apply elem_of_child_ids in Hi as (e & He & <-).
    apply elem_of_child_ids. exists e. split; [now right | reflexivity].
Qed.

(** With identities that are keys, merging a list into itself changes
    nothing. *)
Lemma identity_is_key (l : list A) (x y : A) :
  NoDup (identity <$> l) → x ∈ l → y ∈ l → identity x = identity y → x = y.
Proof.
  induction l as [|a l IH]; intros Hnodup Hx Hy Hid; [now apply elem_of_nil in Hx|].
  rewrite fmap_cons in Hnodup. apply NoDup_cons in Hnodup as [Hfresh Hnodup].
  apply elem_of_cons in Hx as [->|Hx]; apply elem_of_cons in Hy as [->|Hy].
  - reflexivity.
  - exfalso. apply Hfresh. rewrite Hid. now apply list_elem_of_fmap_2.
  - exfalso. apply Hfresh. rewrite <- Hid. now apply list_elem_of_fmap_2.
  - now apply IH.
Qed.

Lemma merge_child_own (acc : list A) (u : A) :
  NoDup (identity <$> acc) → u ∈ acc → merge_child acc u = acc.
Proof.
  intros Hnodup Hu. unfold merge_child.
  rewrite bool_decide_true by (now apply list_elem_of_fmap_2).
  rewrite <- (list_fmap_id acc) at 2. apply list_fmap_ext. intros i e He.
  apply list_elem_of_lookup_2 in He.
  case_bool_decide as Hid; [|reflexivity].
  rewrite (identity_is_key acc e u Hnodup He Hu Hid).
  apply merge_signatures_self.
Qed.

Lemma merge_children_own (existing incoming : list A) :
  NoDup (identity <$> existing) → incoming ⊆ existing →
  merge_children existing incoming = existing.
Proof.
  intros Hnodup. unfold merge_children.
  induction incoming as [|u l IH]; intros Hsub; cbn [foldl]; [reflexivity|].
  rewrite merge_child_own; [|exact Hnodup|apply Hsub; left].
  apply IH. intros x Hx. apply Hsub. now right.
Qed.

Lemma merge_children_self (l : list A) :
  NoDup (identity <$> l) → merge_children l l = l.
Proof. intros Hnodup. now apply merge_children_own. Qed.

(** The identities do not depend on fields [f] leaves alone. *)
Lemma child_ids_fmap (f : A → A) (l : list A) :
  (∀ e, identity (f e) = identity e) → child_ids (f <$> l) = child_ids l.
Proof.
  intros Hid. unfold child_ids. rewrite <- list_fmap_compose.
  f_equal. apply list_fmap_ext. intros _ e _. apply Hid.
Qed.

Lemma child_signature_ids_fmap (f : A → A) (l : list A) :
  (∀ e, identity (f e) = identity e) → (∀ e, signatures (f e) = signatures e) →
  child_signature_ids (f <$> l) = child_signature_ids l.
Proof.
  intros Hid Hsigs. unfold child_signature_ids. f_equal.
  induction l as [|e l IH]; [reflexivity|].
  rewrite fmap_cons, !bind_cons, IH, Hid, Hsigs. reflexivity.
Qed.

End MergeSignable.

Section Merge.
Context `{Derivation}.

Lemma Pubkey_identities_resolve (pubkey : Pubkey) :
  Pubkey_identities (resolve_Pubkey pubkey) = Pubkey_identities pubkey.
Proof.
  unfold Pubkey_identities, resolve_Pubkey.
  cbn [pk_Signatures pk_UserIds pk_UserAttributes pk_Subkeys pk_RFingerprint].
  rewrite !child_ids_fmap, !child_signature_ids_fmap by reflexivity.
  reflexivity.
Qed.

Lemma Pubkey_identities_merge_tree (existing incoming : Pubkey) :
  Pubkey_identities (merge_tree existing incoming)
  = {| ids_Signatures :=
         signature_ids (pk_Signatures existing) ∪ signature_ids (pk_Signatures incoming);
       ids_UserIds := child_ids (pk_UserIds existing) ∪ child_ids (pk_UserIds incoming);
       ids_UserIdSignatures :=
         child_signature_ids (pk_UserIds existing)
         ∪ child_signature_ids (pk_UserIds incoming);
       ids_UserAttributes :=
         child_ids (pk_UserAttributes existing) ∪ child_ids (pk_UserAttributes incoming);
       ids_UserAttributeSignatures :=
         child_signature_ids (pk_UserAttributes existing)
         ∪ child_signature_ids (pk_UserAttributes incoming);
       ids_Subkeys := child_ids (pk_Subkeys existing) ∪ child_ids (pk_Subkeys incoming);
       ids_SubkeySignatures :=
         child_signature_ids (pk_Subkeys existing)
         ∪ child_signature_ids (pk_Subkeys incoming) |}.
Proof.
  unfold Pubkey_identities, merge_tree.
  cbn [pk_Signatures pk_UserIds pk_UserAttributes pk_Subkeys pk_RFingerprint].
  rewrite !child_ids_merge_children, !child_signature_ids_merge_children.
  f_equal.
  exact (@signature_ids_merge_signatures Pubkey Pubkey_Signable existing
           (pk_Signatures incoming)).
Qed.

Lemma merge_tree_self (pubkey : Pubkey) :
  unique_identities pubkey → merge_tree pubkey pubkey = pubkey.
Proof.
  intros (Huids & Huats & Hsubs). unfold merge_tree.
  assert (Hself : merge_signatures pubkey (pk_Signatures pubkey) = pubkey)
    by exact (@merge_signatures_self Pubkey Pubkey_Signable pubkey).
  rewrite Hself.
  rewrite !merge_children_self by assumption.
  now destruct pubkey.
Qed.

Lemma erase_derived_resolve (pubkey : Pubkey) :
  erase_derived (resolve_Pubkey pubkey) = erase_derived pubkey.
Proof.
  unfold erase_derived, resolve_Pubkey.
  cbn [pk_RFingerprint pk_Creation pk_Expiration pk_Packet pk_Ctime pk_Mtime pk_Md5
       pk_Sha256 pk_RevsigDigest pk_Algorithm pk_BitLen pk_Signatures pk_Subkeys
       pk_UserIds pk_UserAttributes].
  rewrite <- !list_fmap_compose.
  f_equal; apply list_fmap_ext; intros _ e _; reflexivity.
Qed.

Lemma Pubkey_skeleton_erase_derived (pubkey : Pubkey) :
  Pubkey_skeleton (erase_derived pubkey) = Pubkey_skeleton pubkey.
Proof.
  unfold Pubkey_skeleton, erase_derived.
  cbn [pk_RFingerprint pk_Signatures pk_Subkeys pk_UserIds pk_UserAttributes].
  rewrite <- !list_fmap_compose.
  f_equal; apply list_fmap_ext; intros _ e _; reflexivity.
Qed.

(** Structurally equivalent trees have the same identities, entity by
    entity. *)
Lemma structurally_equivalent_skeleton (M A : Pubkey) :
  structurally_equivalent M A → Pubkey_skeleton M = Pubkey_skeleton A.
Proof.
  unfold structurally_equivalent. intros E.
  rewrite <- (Pubkey_skeleton_erase_derived M), <- (Pubkey_skeleton_erase_derived A).
  now rewrite E.
Qed.


End Merge.



(** The first end-to-end scenario of the design document, and the
    second: the incoming self-signature is resolved on the merged
    UserId, every entity of either side is in the result once, and the
    incoming revocation makes the merged key revoked while the
    signatures already stored stay. *)
Example merge_example :
  ∃ M, merge (H:=ex_derivation) ex_A ex_B = inr M
    ∧ sig_ScopedDigest <$> pk_Signatures M = ["s1"; "r1"]%string
    ∧ (λ u, (uid_ScopedDigest u, sig_ScopedDigest <$> uid_Signatures u,
             sig_ScopedDigest <$> uid_SelfSignature u)) <$> pk_UserIds M
      = [("alice", ["c1"], Some "c1"); ("bob", [], None)]%string
    ∧ uat_ScopedDigest <$> pk_UserAttributes M = ["photo"]%string
    ∧ (λ k, (sub_RFingerprint k, sig_ScopedDigest <$> sub_Signatures k)) <$> pk_Subkeys M
      = [("k1", ["b1"; "b2"])]%string
    ∧ pk_State M = 2
    ∧ sig_ScopedDigest <$> pk_Revsig M = Some "r1"%string.
Proof. eexists. split; [reflexivity|]. repeat split. Qed.

(** Identities that are not keys: a tree with two UserIds of one digest
    merged with itself gives each of them the signatures of the other. *)
Example merge_self_shared_identity :
  let A := ex_pubkey (Reverse ex_fp) []
             [ex_uid "alice" [ex_sig "c1" 0x13]; ex_uid "alice" [ex_sig "c2" 0x10]] [] [] in
  ∃ M, merge (H:=ex_derivation) A A = inr M
    ∧ (λ u, (uid_ScopedDigest u, sig_ScopedDigest <$> uid_Signatures u)) <$> pk_UserIds M
      = [("alice", ["c1"; "c2"]); ("alice", ["c2"; "c1"])]%string.
Proof. eexists. split; reflexivity. Qed.

Example merge_fingerprint_mismatch :
  merge (H:=ex_derivation) ex_A (ex_pubkey "76543210" [] [] [] [])
  = inl ErrFingerprintMismatch.
Proof. reflexivity. Qed.

(** * Further properties of the code *)

(** ** The order packets are sorted in *)

Lemma Byte_to_N_inj (x y : Byte.byte) : Byte.to_N x = Byte.to_N y → x = y.
Proof.
  intros E. assert (Hx := Byte.of_to_N x). assert (Hy := Byte.of_to_N y).
  rewrite E in Hx. congruence.
Qed.

Lemma bytes_Compare_range (a b : list Byte.byte) :
  bytes_Compare a b = -1 ∨ bytes_Compare a b = 0 ∨ bytes_Compare a b = 1.
Proof.
  revert b. induction a as [|x a IH]; intros [|y b]; cbn; auto.
  destruct (_ <? _)%N; [auto|]. destruct (_ <? _)%N; auto.
Qed.

Lemma bytes_Compare_eq (a b : list Byte.byte) : bytes_Compare a b = 0 ↔ a = b.
Proof.
  revert b. induction a as [|x a IH]; intros [|y b]; cbn; try (split; congruence).
  destruct (N.ltb_spec (Byte.to_N x) (Byte.to_N y)) as [Hlt|Hge].
  { split; [discriminate|]. intros [= -> _]. lia. }
  destruct (N.ltb_spec (Byte.to_N y) (Byte.to_N x)) as [Hlt|Hle].
  { split; [discriminate|]. intros [= -> _]. lia. }
  rewrite IH. split.
  - intros ->. f_equal. apply Byte_to_N_inj. lia.
  - now intros [= _ ->].
Qed.

Lemma bytes_Compare_antisym (a b : list Byte.byte) :
  bytes_Compare b a = - bytes_Compare a b.
Proof.
  revert b. induction a as [|x a IH]; intros [|y b]; cbn; try reflexivity.
  destruct (N.ltb_spec (Byte.to_N x) (Byte.to_N y)) as [Hlt|Hge];
    destruct (N.ltb_spec (Byte.to_N y) (Byte.to_N x)) as [Hlt'|Hle];
    try reflexivity; try lia. apply IH.
Qed.

Lemma bytes_Compare_trans (a b c : list Byte.byte) :
  bytes_Compare a b < 0 → bytes_Compare b c < 0 → bytes_Compare a c < 0.
Proof.
  revert b c. induction a as [|x a IH]; intros [|y b] [|z c]; cbn; try lia.
  destruct (N.ltb_spec (Byte.to_N x) (Byte.to_N y)) as [Hxy|Hxy];
    destruct (N.ltb_spec (Byte.to_N y) (Byte.to_N x)) as [Hyx|Hyx];
    destruct (N.ltb_spec (Byte.to_N y) (Byte.to_N z)) as [Hyz|Hyz];
    destruct (N.ltb_spec (Byte.to_N z) (Byte.to_N y)) as [Hzy|Hzy];
    destruct (N.ltb_spec (Byte.to_N x) (Byte.to_N z)) as [Hxz|Hxz];
    destruct (N.ltb_spec (Byte.to_N z) (Byte.to_N x)) as [Hzx|Hzx];
    try lia.
  apply IH.
Qed.

(** With tags that are bytes the [int32] difference is the difference. *)
Lemma int32_tag_difference (s t : Z) :
  0 ≤ s < 256 → 0 ≤ t < 256 → int32 (int32 s - int32 t) = s - t.
Proof.
  intros Hs Ht. unfold int32.
  rewrite (Z.mod_small (s + 2 ^ 31)), (Z.mod_small (t + 2 ^ 31)) by lia.
  rewrite Z.mod_small by lia. lia.
Qed.

(** [less] as a lexicographic comparison of (Tag, Contents). *)
Lemma sksPacketSorter_less_true (a b : packet_OpaquePacket) :
  0 ≤ op_Tag a < 256 → 0 ≤ op_Tag b < 256 →
  sksPacketSorter_less a b = true
  ↔ op_Tag a < op_Tag b
    ∨ (op_Tag a = op_Tag b ∧ bytes_Compare (op_Contents a) (op_Contents b) < 0).
Proof.
  intros Ha Hb. unfold sksPacketSorter_less.
  rewrite int32_tag_difference by assumption.
  destruct (Z.ltb_spec (op_Tag a - op_Tag b) 0) as [Hlt|Hge].
  { split; [left; lia | reflexivity]. }
  destruct (Z.ltb_spec 0 (op_Tag a - op_Tag b)) as [Hgt|Hle].
  { split; [discriminate | lia]. }
  rewrite Z.ltb_lt. split; [right; split; lia | intros [?|[_ ?]]; lia].
Qed.

Lemma slice_index_Forall {A} (P : A → Prop) (s : list A) (i : Z) (x : A) :
  Forall P s → slice_index s i = Some x → P x.
Proof.
  intros Hall. unfold slice_index. case_decide; [|discriminate].
  intros Hx. exact (Forall_lookup_1 P s _ x Hall Hx).
Qed.

Lemma slice_index_Some {A} (s : list A) (i : Z) :
  0 ≤ i < Z.of_nat (length s) ↔ is_Some (slice_index s i).
Proof.
  unfold slice_index. case_decide as Hi.
  - rewrite lookup_lt_is_Some. lia.
  - split; [lia | intros [x ?]; discriminate].
Qed.

(** X1.  On a slice whose tags are bytes, [Less] is a strict order on
    positions: no position is less than itself, [Less(i,j)] excludes
    [Less(j,i)], and [Less(i,j)] with [Less(j,k)] gives [Less(i,k)]. *)
Theorem Less_strict_order (sps : list packet_OpaquePacket) (i j k : Z)
    (Htags : tags_uint8 sps) :
  sksPacketSorter_Less sps i i ≠ Some true
  ∧ (sksPacketSorter_Less sps i j = Some true →
     sksPacketSorter_Less sps j i = Some false)
  ∧ (sksPacketSorter_Less sps i j = Some true →
     sksPacketSorter_Less sps j k = Some true →
     sksPacketSorter_Less sps i k = Some true).
Proof.
  unfold sksPacketSorter_Less.
  destruct (slice_index sps i) as [a|] eqn:Hi; [|repeat split; congruence].
  assert (Ha := slice_index_Forall _ _ _ _ Htags Hi).
  split; [|split].
  - intros [= Hlt]. apply sksPacketSorter_less_true in Hlt; [|assumption..].
    rewrite (proj2 (bytes_Compare_eq _ _) eq_refl) in Hlt. lia.
  - destruct (slice_index sps j) as [b|] eqn:Hj; [|congruence].
    assert (Hb := slice_index_Forall _ _ _ _ Htags Hj).
    intros [= Hlt]. f_equal. apply sksPacketSorter_less_true in Hlt; [|assumption..].
    apply not_true_is_false. intros Hgt.
    apply sksPacketSorter_less_true in Hgt; [|assumption..].
    rewrite (bytes_Compare_antisym (op_Contents a) (op_Contents b)) in Hgt. lia.
  - destruct (slice_index sps j) as [b|] eqn:Hj; [|congruence].
    assert (Hb := slice_index_Forall _ _ _ _ Htags Hj).
    destruct (slice_index sps k) as [c|] eqn:Hk; [|congruence].
    assert (Hc := slice_index_Forall _ _ _ _ Htags Hk).
    intros [= Hab] [= Hbc]. f_equal.
    apply sksPacketSorter_less_true in Hab; [|assumption..].
    apply sksPacketSorter_less_true in Hbc; [|assumption..].
    apply sksPacketSorter_less_true; [assumption..|].
    destruct Hab as [Hab|[Hab Hab']], Hbc as [Hbc|[Hbc Hbc']]; try (left; lia).
    right. split; [lia|]. eapply bytes_Compare_trans; eassumption.
Qed.

Lemma Less_strict_order_witness :
  tags_uint8 ex_packets
  ∧ sksPacketSorter_Less ex_packets 2 2 ≠ Some true
  ∧ (sksPacketSorter_Less ex_packets 1 2 = Some true
     ∧ sksPacketSorter_Less ex_packets 2 1 = Some false)
  ∧ (sksPacketSorter_Less ex_packets 2 0 = Some true
     ∧ sksPacketSorter_Less ex_packets 1 0 = Some true).
Proof.
  assert (Htags : tags_uint8 ex_packets) by (repeat constructor; cbn; lia).
  split; [exact Htags|].
  destruct (Less_strict_order ex_packets 2 1 0 Htags) as (Hirr & _ & _).
  destruct (Less_strict_order ex_packets 1 2 0 Htags) as (_ & Hasym & Htrans).
  split; [exact Hirr|].
  split; [split; [reflexivity | exact (Hasym eq_refl)]|].
  split; [reflexivity | exact (Htrans eq_refl eq_refl)].
Defined.

(** X2.  [Less] is total on (Tag, Contents).  It returns (does not
    panic) exactly when both positions are in range; then either
    exactly one of [Less(i,j)], [Less(j,i)] holds, or neither does and
    the two packets have the same tag and the same contents. *)
Theorem Less_total (sps : list packet_OpaquePacket) (i j : Z)
    (Htags : tags_uint8 sps) :
  (is_Some (sksPacketSorter_Less sps i j)
   ↔ 0 ≤ i < packetSlice_Len sps ∧ 0 ≤ j < packetSlice_Len sps)
  ∧ (∀ a b, slice_index sps i = Some a → slice_index sps j = Some b →
       (sksPacketSorter_Less sps i j = Some true
        ∧ sksPacketSorter_Less sps j i = Some false)
       ∨ (sksPacketSorter_Less sps i j = Some false
          ∧ sksPacketSorter_Less sps j i = Some true)
       ∨ (sksPacketSorter_Less sps i j = Some false
          ∧ sksPacketSorter_Less sps j i = Some false
          ∧ op_Tag a = op_Tag b ∧ op_Contents a = op_Contents b)).
Proof.
  unfold sksPacketSorter_Less, packetSlice_Len. split.
  - rewrite !slice_index_Some.
    destruct (slice_index sps i) as [a|], (slice_index sps j) as [b|].
    + split; intros _; [split|]; eauto.
    + split; [intros [x Hx]; discriminate | intros [_ [x Hx]]; discriminate].
    + split; [intros [x Hx]; discriminate | intros [[x Hx] _]; discriminate].
    + split; [intros [x Hx]; discriminate | intros [[x Hx] _]; discriminate].
  - intros a b Hi Hj. rewrite Hi, Hj.
    assert (Ha := slice_index_Forall _ _ _ _ Htags Hi).
    assert (Hb := slice_index_Forall _ _ _ _ Htags Hj).
    assert (Hab := sksPacketSorter_less_true a b Ha Hb).
    assert (Hba := sksPacketSorter_less_true b a Hb Ha).
    rewrite (bytes_Compare_antisym (op_Contents a) (op_Contents b)) in Hba.
    assert (Heq := bytes_Compare_eq (op_Contents a) (op_Contents b)).
    revert Hab Hba Heq.
    generalize (bytes_Compare (op_Contents a) (op_Contents b)). intros c Hab Hba Heq.
    destruct (sksPacketSorter_less a b), (sksPacketSorter_less b a).
    + exfalso. assert (H1 := proj1 Hab eq_refl). assert (H2 := proj1 Hba eq_refl). lia.
    + left. split; reflexivity.
    + right. left. split; reflexivity.
    + right. right. split; [reflexivity|]. split; [reflexivity|].
      assert (H1 : ¬ (op_Tag a < op_Tag b ∨ op_Tag a = op_Tag b ∧ c < 0))
        by (intros H; apply Hab in H; discriminate).
      assert (H2 : ¬ (op_Tag b < op_Tag a ∨ op_Tag b = op_Tag a ∧ - c < 0))
        by (intros H; apply Hba in H; discriminate).
      split; [lia|]. apply Heq. lia.
Qed.

Lemma Less_total_witness :
  tags_uint8 (ex_packets ++ [mkOpaquePacket 6 [Byte.x04]])
  ∧ sksPacketSorter_Less (ex_packets ++ [mkOpaquePacket 6 [Byte.x04]]) 0 5 = None
  ∧ (sksPacketSorter_Less (ex_packets ++ [mkOpaquePacket 6 [Byte.x04]]) 3 4 = Some false
     ∧ sksPacketSorter_Less (ex_packets ++ [mkOpaquePacket 6 [Byte.x04]]) 4 3 = Some false)
  ∧ (sksPacketSorter_Less (ex_packets ++ [mkOpaquePacket 6 [Byte.x04]]) 0 2 = Some false
     ∧ sksPacketSorter_Less (ex_packets ++ [mkOpaquePacket 6 [Byte.x04]]) 2 0 = Some true).
Proof.
  set (sps := ex_packets ++ [mkOpaquePacket 6 [Byte.x04]]).
  assert (Htags : tags_uint8 sps) by (repeat constructor; cbn; lia).
  split; [exact Htags|].
  split; [|split].
  - destruct (Less_total sps 0 5 Htags) as [Hrange _].
    destruct (sksPacketSorter_Less sps 0 5) as [r|] eqn:E; [|reflexivity].
    exfalso. assert (H : is_Some (Some r)) by eauto.
    apply Hrange in H. destruct H as [_ [_ H]]. vm_compute in H. discriminate H.
  - destruct (Less_total sps 3 4 Htags) as [_ Htri].
    destruct (Htri _ _ eq_refl eq_refl) as [[H _]|[[_ H]|(H1 & H2 & _)]];
      [discriminate H | discriminate H | split; assumption].
  - destruct (Less_total sps 0 2 Htags) as [_ Htri].
    destruct (Htri _ _ eq_refl eq_refl) as [[H _]|[[H1 H2]|(_ & H & _)]];
      [discriminate H | split; assumption | discriminate H].
Defined.

(** ** Swapping packets *)

Section Swap.
Context {A : Type}.
Implicit Types (l : list A) (n m k : nat) (a b : A).

Lemma swap_lookup l n m a b k :
  l !! n = Some a → l !! m = Some b →
  <[m:=a]> (<[n:=b]> l) !! k
  = if decide (k = m) then Some a else if decide (k = n) then Some b else l !! k.
Proof.
  intros Hn Hm.
  assert (n < length l)%nat by (eapply lookup_lt_Some; eassumption).
  assert (m < length l)%nat by (eapply lookup_lt_Some; eassumption).
  destruct (decide (k = m)) as [->|Hkm].
  - apply list_lookup_insert_eq. now rewrite length_insert.
  - rewrite list_lookup_insert_ne by congruence.
    destruct (decide (k = n)) as [->|Hkn].
    + now apply list_lookup_insert_eq.
    + apply list_lookup_insert_ne. congruence.
Qed.

Lemma insert_head_Permutation l m a b :
  l !! m = Some b → b :: <[m:=a]> l ≡ₚ a :: l.
Proof.
  revert m. induction l as [|y l IH]; intros [|m] Hm; try discriminate.
  - injection Hm as ->. cbn. apply perm_swap.
  - cbn in Hm |- *. rewrite (perm_swap y b). rewrite (IH m Hm). apply perm_swap.
Qed.

Lemma swap_Permutation l n m a b :
  l !! n = Some a → l !! m = Some b → <[m:=a]> (<[n:=b]> l) ≡ₚ l.
Proof.
  revert n m. induction l as [|x l IH]; intros [|n] [|m] Hn Hm; try discriminate.
  - injection Hn as ->. injection Hm as ->. reflexivity.
  - injection Hn as ->. cbn in Hm |- *. now apply insert_head_Permutation.
  - injection Hm as ->. cbn in Hn |- *. now apply insert_head_Permutation.
  - cbn in Hn, Hm |- *. apply perm_skip. now apply IH.
Qed.

Lemma swap_back l n m a b :
  l !! n = Some a → l !! m = Some b →
  ∃ a' b', <[m:=a]> (<[n:=b]> l) !! n = Some a'
           ∧ <[m:=a]> (<[n:=b]> l) !! m = Some b'
           ∧ <[m:=a']> (<[n:=b']> (<[m:=a]> (<[n:=b]> l))) = l.
Proof.
  intros Hn Hm.
  assert (Hlook := swap_lookup l n m a b).
  assert (Hn' : <[m:=a]> (<[n:=b]> l) !! n = Some (if decide (n = m) then a else b)).
  { rewrite Hlook by assumption. destruct (decide (n = m)); [reflexivity|].
    now rewrite decide_True. }
  assert (Hm' : <[m:=a]> (<[n:=b]> l) !! m = Some a).
  { rewrite Hlook by assumption. now rewrite decide_True. }
  exists (if decide (n = m) then a else b), a.
  split; [exact Hn'|]. split; [exact Hm'|].
  apply list_eq. intros k.
  rewrite (swap_lookup _ n m _ _ k Hn' Hm'), (Hlook k Hn Hm).
  destruct (decide (k = m)) as [->|Hkm].
  - destruct (decide (n = m)) as [->|]; congruence.
  - destruct (decide (k = n)) as [->|Hkn]; [congruence | reflexivity].
Qed.

End Swap.

Lemma slice_index_nat {A} (s : list A) (i : Z) :
  0 ≤ i → slice_index s i = s !! Z.to_nat i.
Proof. intros Hi. unfold slice_index. now rewrite decide_True. Qed.

(** X3.  [Swap] of two positions in range exchanges the two packets and
    nothing else: the slice keeps its length, is a permutation of what
    it was, and a second [Swap] of the same positions restores it.
    With a position out of range [Swap] panics. *)
Theorem Swap_exchanges (ps : list packet_OpaquePacket) (i j : Z) :
  (0 ≤ i < packetSlice_Len ps → 0 ≤ j < packetSlice_Len ps →
   ∃ ps', packetSlice_Swap ps i j = Some ps'
     ∧ packetSlice_Len ps' = packetSlice_Len ps
     ∧ ps' ≡ₚ ps
     ∧ slice_index ps' i = slice_index ps j
     ∧ slice_index ps' j = slice_index ps i
     ∧ (∀ k, k ≠ i → k ≠ j → slice_index ps' k = slice_index ps k)
     ∧ packetSlice_Swap ps' i j = Some ps)
  ∧ (¬ (0 ≤ i < packetSlice_Len ps ∧ 0 ≤ j < packetSlice_Len ps) →
     packetSlice_Swap ps i j = None).
Proof.
  unfold packetSlice_Len, packetSlice_Swap. split.
  - intros Hi Hj.
    destruct (proj1 (slice_index_Some ps i) Hi) as [a Ha].
    destruct (proj1 (slice_index_Some ps j) Hj) as [b Hb].
    rewrite Ha, Hb. rewrite slice_index_nat in Ha, Hb by lia.
    eexists. split; [reflexivity|].
    split; [now rewrite !length_insert|].
    split; [now apply swap_Permutation|].
    rewrite !slice_index_nat by lia.
    assert (Hlook := swap_lookup ps (Z.to_nat i) (Z.to_nat j) a b).
    split; [|split; [|split]].
    + rewrite Hlook by assumption. destruct (decide (Z.to_nat i = Z.to_nat j)) as [E|];
        [rewrite E in Ha; congruence|].
      now rewrite decide_True.
    + rewrite Hlook by assumption. now rewrite decide_True.
    + intros k Hki Hkj. unfold slice_index. case_decide; [|reflexivity].
      rewrite Hlook by assumption. rewrite !decide_False by lia. reflexivity.
    + destruct (swap_back ps (Z.to_nat i) (Z.to_nat j) a b Ha Hb)
        as (a' & b' & Ha' & Hb' & Hback).
      rewrite Ha', Hb'. now rewrite Hback.
  - intros Hout.
    destruct (slice_index ps i) as [a|] eqn:Ha; [|reflexivity].
    destruct (slice_index ps j) as [b|] eqn:Hb; [|reflexivity].
    exfalso. apply Hout. split; apply slice_index_Some; eauto.
Qed.

Lemma Swap_exchanges_witness :
  (0 ≤ 0 < packetSlice_Len ex_packets ∧ 0 ≤ 3 < packetSlice_Len ex_packets)
  ∧ (∃ ps', packetSlice_Swap ex_packets 0 3 = Some ps'
       ∧ ps' ≡ₚ ex_packets
       ∧ slice_index ps' 0 = Some (mkOpaquePacket 6 [Byte.x04])
       ∧ packetSlice_Swap ps' 0 3 = Some ex_packets)
  ∧ (¬ (0 ≤ 1 < packetSlice_Len ex_packets ∧ 0 ≤ 4 < packetSlice_Len ex_packets)
     ∧ packetSlice_Swap ex_packets 1 4 = None).
Proof.
  assert (H0 : 0 ≤ 0 < packetSlice_Len ex_packets) by (vm_compute; split; congruence).
  assert (H3 : 0 ≤ 3 < packetSlice_Len ex_packets) by (vm_compute; split; congruence).
  assert (H4 : ¬ (0 ≤ 1 < packetSlice_Len ex_packets ∧ 0 ≤ 4 < packetSlice_Len ex_packets))
    by (vm_compute; intros [_ [_ H]]; discriminate H).
  split; [split; assumption|]. split.
  - destruct (Swap_exchanges ex_packets 0 3) as [Hin _].
    destruct (Hin H0 H3) as (ps' & Hswap & _ & Hperm & Hi & _ & _ & Hback).
    exists ps'. split; [exact Hswap|]. split; [exact Hperm|].
    split; [rewrite Hi; reflexivity | exact Hback].
  - split; [exact H4|].
    destruct (Swap_exchanges ex_packets 1 4) as [_ Hout]. exact (Hout H4).
Defined.

Lemma packetSlice_Swap_Some (ps ps' : list packet_OpaquePacket) (i j : Z) :
  packetSlice_Swap ps i j = Some ps' →
  ∃ a b, 0 ≤ i ∧ 0 ≤ j
    ∧ ps !! Z.to_nat i = Some a ∧ ps !! Z.to_nat j = Some b
    ∧ ps' = <[Z.to_nat j := a]> (<[Z.to_nat i := b]> ps).
Proof.
  unfold packetSlice_Swap, slice_index.
  destruct (decide (0 ≤ i)); [|discriminate].
  destruct (ps !! Z.to_nat i) as [a|] eqn:Ha; [|discriminate].
  destruct (decide (0 ≤ j)); [|discriminate].
  destruct (ps !! Z.to_nat j) as [b|] eqn:Hb; [|discriminate].
  intros [= <-]. exists a, b. auto.
Qed.

(** X4.  [Less] after [Swap]: once positions [i] and [j] are swapped,
    [Less(i,j)] is what [Less(j,i)] was, and comparisons between other
    positions are unchanged. *)
Theorem Less_after_Swap (ps ps' : list packet_OpaquePacket) (i j : Z)
    (Hswap : packetSlice_Swap ps i j = Some ps') :
  sksPacketSorter_Less ps' i j = sksPacketSorter_Less ps j i
  ∧ sksPacketSorter_Less ps' j i = sksPacketSorter_Less ps i j
  ∧ (∀ k l, k ≠ i → k ≠ j → l ≠ i → l ≠ j →
       sksPacketSorter_Less ps' k l = sksPacketSorter_Less ps k l).
Proof.
  apply packetSlice_Swap_Some in Hswap as (a & b & Hi & Hj & Ha & Hb & ->).
  assert (Hlook := λ k, swap_lookup ps (Z.to_nat i) (Z.to_nat j) a b k Ha Hb).
  assert (Hi' : slice_index (<[Z.to_nat j:=a]> (<[Z.to_nat i:=b]> ps)) i
                = slice_index ps j).
  { rewrite !slice_index_nat, Hlook by assumption.
    destruct (decide (Z.to_nat i = Z.to_nat j)) as [E|]; [rewrite <- E; congruence|].
    rewrite decide_True by reflexivity. congruence. }
  assert (Hj' : slice_index (<[Z.to_nat j:=a]> (<[Z.to_nat i:=b]> ps)) j
                = slice_index ps i).
  { rewrite !slice_index_nat, Hlook by assumption.
    rewrite decide_True by reflexivity. congruence. }
  assert (Hk' : ∀ k, k ≠ i → k ≠ j →
            slice_index (<[Z.to_nat j:=a]> (<[Z.to_nat i:=b]> ps)) k
            = slice_index ps k).
  { intros k Hki Hkj. unfold slice_index. case_decide; [|reflexivity].
    rewrite Hlook, !decide_False by lia. reflexivity. }
  unfold sksPacketSorter_Less.
  split; [now rewrite Hi', Hj'|]. split; [now rewrite Hi', Hj'|].
  intros k l ? ? ? ?. now rewrite !Hk'.
Qed.

Lemma Less_after_Swap_witness :
  let ps' := [mkOpaquePacket 13 [Byte.x61; Byte.x6c]; mkOpaquePacket 2 [Byte.x04; Byte.x13];
              mkOpaquePacket 13 [Byte.x62; Byte.x6f; Byte.x62]; mkOpaquePacket 6 [Byte.x04]] in
  packetSlice_Swap ex_packets 0 2 = Some ps'
  ∧ sksPacketSorter_Less ex_packets 2 0 = Some true
  ∧ sksPacketSorter_Less ps' 0 2 = Some true
  ∧ sksPacketSorter_Less ps' 3 1 = sksPacketSorter_Less ex_packets 3 1.
Proof.
  intros ps'.
  assert (Hswap : packetSlice_Swap ex_packets 0 2 = Some ps') by reflexivity.
  destruct (Less_after_Swap ex_packets ps' 0 2 Hswap) as (Hij & _ & Hother).
  split; [exact Hswap|]. split; [reflexivity|].
  split; [rewrite Hij; reflexivity|].
  apply Hother; discriminate.
Defined.

(** ** Walking the owned entities *)

(** X5.  [Visit] on a UserId, a UserAttribute or a Subkey applies the
    visitor to the entity and then to its signatures in stored order,
    and stops at the first error, which it returns; [Visit] on a
    Signature is the visitor's call on it. *)
Theorem Entity_Visit_order {St} (visitor : PacketVisitor St) (sig : Signature)
    (uid : UserId) (uat : UserAttribute) (subkey : Subkey) (st : St) :
  Signature_Visit visitor sig st = visitor (PR_Signature sig) st
  ∧ fail_fast_over visitor
      (PR_UserId uid :: (PR_Signature <$> uid_Signatures uid)) st
      (UserId_Visit visitor uid st)
  ∧ fail_fast_over visitor
      (PR_UserAttribute uat :: (PR_Signature <$> uat_Signatures uat)) st
      (UserAttribute_Visit visitor uat st)
  ∧ fail_fast_over visitor
      (PR_Subkey subkey :: (PR_Signature <$> sub_Signatures subkey)) st
      (Subkey_Visit visitor subkey st).
Proof.
  split; [reflexivity|]. unfold fail_fast_over.
  rewrite UserId_Visit_preorder, UserAttribute_Visit_preorder, Subkey_Visit_preorder.
  split; [|split]; apply range_Visit_flat.
Qed.

(** X6.  A signature added with [AddSignature] is walked right after the
    signatures the entity already had: on a Pubkey before the first
    UserId, on a UserId as the last record. *)
Theorem AddSignature_Visit {St} (visitor : PacketVisitor St) (pubkey : Pubkey)
    (uid : UserId) (sig : Signature) (st : St) :
  fail_fast_over visitor
    (PR_Pubkey (Pubkey_AddSignature pubkey sig)
     :: (PR_Signature <$> pk_Signatures pubkey)
     ++ PR_Signature sig
     :: (pk_UserIds pubkey ≫= UserId_preorder)
     ++ (pk_UserAttributes pubkey ≫= UserAttribute_preorder)
     ++ (pk_Subkeys pubkey ≫= Subkey_preorder)) st
    (Pubkey_Visit visitor (Pubkey_AddSignature pubkey sig) st)
  ∧ fail_fast_over visitor
      (PR_UserId (UserId_AddSignature uid sig)
       :: (PR_Signature <$> uid_Signatures uid) ++ [PR_Signature sig]) st
      (UserId_Visit visitor (UserId_AddSignature uid sig) st).
Proof.
  unfold fail_fast_over. rewrite Pubkey_Visit_preorder, UserId_Visit_preorder.
  split.
  - assert (E : Pubkey_preorder (Pubkey_AddSignature pubkey sig)
              = PR_Pubkey (Pubkey_AddSignature pubkey sig)
                :: (PR_Signature <$> pk_Signatures pubkey)
                ++ PR_Signature sig
                :: (pk_UserIds pubkey ≫= UserId_preorder)
                ++ (pk_UserAttributes pubkey ≫= UserAttribute_preorder)
                ++ (pk_Subkeys pubkey ≫= Subkey_preorder)).
    { unfold Pubkey_preorder, Pubkey_AddSignature.
      cbn [pk_Signatures pk_UserIds pk_UserAttributes pk_Subkeys].
      now rewrite fmap_app, <- app_assoc. }
    rewrite E. apply range_Visit_flat.
  - assert (E : UserId_preorder (UserId_AddSignature uid sig)
              = PR_UserId (UserId_AddSignature uid sig)
                :: (PR_Signature <$> uid_Signatures uid) ++ [PR_Signature sig]).
    { unfold UserId_preorder, UserId_AddSignature. cbn [uid_Signatures].
      now rewrite fmap_app. }
    rewrite E. apply range_Visit_flat.
Qed.

(** ** Adding signatures and the resolvers *)

Lemma find_snoc (p : Signature → bool) (sigs : list Signature) (sig : Signature) :
  List.find p (sigs ++ [sig])
  = match List.find p sigs with
    | Some s => Some s
    | None => if p sig then Some sig else None
    end.
Proof.
  induction sigs as [|x sigs IH]; cbn; [reflexivity|].
  destruct (p x); [reflexivity | exact IH].
Qed.

(** X7.  [AddSignature] never changes a self-signature that is already
    resolved: [SelfSignature] after it is what it was, and when there
    was none it is the added signature exactly if that has a matching
    type (0x13 on a UserId; 0x13 or 0x19 on a Pubkey). *)
Theorem SelfSignature_AddSignature (uid : UserId) (pk : Pubkey) (sig : Signature) :
  UserId_SelfSignature (UserId_AddSignature uid sig)
  = match UserId_SelfSignature uid with
    | Some s => Some s
    | None => if is_positive_cert sig then Some sig else None
    end
  ∧ Pubkey_SelfSignature (Pubkey_AddSignature pk sig)
    = match Pubkey_SelfSignature pk with
      | Some s => Some s
      | None => if is_key_self_sig sig then Some sig else None
      end.
Proof.
  unfold UserId_SelfSignature, Pubkey_SelfSignature.
  rewrite !UserId_SelfSignature_range_find, !Pubkey_SelfSignature_range_find.
  split; apply find_snoc.
Qed.

(** ** What a successful [SetPublicKey] stores *)

Section SetPublicKey.
Context `{PacketLib}.

Lemma Pubkey_SetPublicKey_ok pubkey pk pubkey' :
  Pubkey_SetPublicKey pubkey pk = (pubkey', None) →
  ∃ buf bitLen,
    PublicKey_Serialize pk = inr buf ∧ PublicKey_BitLength pk = inr bitLen
    ∧ pkt_IsSubkey pk = false
    ∧ pubkey' =
      {| pk_RFingerprint := Reverse (Fingerprint pk);
         pk_Creation := pkt_CreationTime pk;
         pk_Expiration := pk_Expiration pubkey;
         pk_State := pk_State pubkey;
         pk_Packet := buf;
         pk_Ctime := pk_Ctime pubkey;
         pk_Mtime := pk_Mtime pubkey;
         pk_Md5 := pk_Md5 pubkey;
         pk_Sha256 := pk_Sha256 pubkey;
         pk_RevsigDigest := pk_RevsigDigest pubkey;
         pk_Algorithm := pkt_PubKeyAlgo pk;
         pk_BitLen := bitLen;
         pk_Signatures := pk_Signatures pubkey;
         pk_Subkeys := pk_Subkeys pubkey;
         pk_UserIds := pk_UserIds pubkey;
         pk_UserAttributes := pk_UserAttributes pubkey;
         pk_Revsig := pk_Revsig pubkey |}.
Proof.
  unfold Pubkey_SetPublicKey.
  destruct (PublicKey_Serialize pk) as [e|buf]; [congruence|].
  destruct (PublicKey_BitLength pk) as [e|bitLen]; [congruence|].
  destruct (pkt_IsSubkey pk); [congruence|].
  intros E. apply (f_equal fst) in E. cbn [fst] in E. subst pubkey'.
  exists buf, bitLen. auto.
Qed.

Lemma Subkey_SetPublicKey_ok subkey pk subkey' :
  Subkey_SetPublicKey subkey pk = (subkey', None) →
  ∃ buf bitLen,
    PublicKey_Serialize pk = inr buf ∧ PublicKey_BitLength pk = inr bitLen
    ∧ pkt_IsSubkey pk = true
    ∧ subkey' =
      {| sub_RFingerprint := Reverse (Fingerprint pk);
         sub_Creation := pkt_CreationTime pk;
         sub_Expiration := sub_Expiration subkey;
         sub_State := sub_State subkey;
         sub_Packet := buf;
         sub_PubkeyRFP := sub_PubkeyRFP subkey;
         sub_RevsigDigest := sub_RevsigDigest subkey;
         sub_Algorithm := pkt_PubKeyAlgo pk;
         sub_BitLen := bitLen;
         sub_Signatures := sub_Signatures subkey |}.
Proof.
  unfold Subkey_SetPublicKey.
  destruct (PublicKey_Serialize pk) as [e|buf]; [congruence|].
  destruct (PublicKey_BitLength pk) as [e|bitLen]; [congruence|].
  destruct (pkt_IsSubkey pk); cbn [negb]; [|congruence].
  intros E. apply (f_equal fst) in E. cbn [fst] in E. subst subkey'.
  exists buf, bitLen. auto.
Qed.

(** X8.  After a successful [Pubkey.SetPublicKey(pk)] the packet was a
    primary key, the stored bytes are its serialization (and are what
    [Serialize] writes), [Fingerprint()] is the packet's fingerprint and,
    when that has 16 characters or more, [KeyId()] and [ShortId()] are
    its last 16 and 8; creation, algorithm and bit length are the
    packet's; the signatures, user ids, user attributes, subkeys, state
    and expiration of the key are untouched. *)
Theorem Pubkey_SetPublicKey_stores (pubkey pubkey' : Pubkey) (pk : packet_PublicKey)
    (Hset : Pubkey_SetPublicKey pubkey pk = (pubkey', None)) :
  pkt_IsSubkey pk = false
  ∧ PublicKey_Serialize pk = inr (pk_Packet pubkey')
  ∧ (∀ W (Write : list Byte.byte → W → W * option error) w,
       Pubkey_Serialize Write pubkey' w = Write (pk_Packet pubkey') w)
  ∧ PublicKey_BitLength pk = inr (pk_BitLen pubkey')
  ∧ pk_Creation pubkey' = pkt_CreationTime pk
  ∧ pk_Algorithm pubkey' = pkt_PubKeyAlgo pk
  ∧ Pubkey_Fingerprint pubkey' = Fingerprint pk
  ∧ ((16 ≤ String.length (Fingerprint pk))%nat →
     Pubkey_KeyId pubkey' = Some (last_chars 16 (Fingerprint pk))
     ∧ Pubkey_ShortId pubkey' = Some (last_chars 8 (Fingerprint pk)))
  ∧ pk_Signatures pubkey' = pk_Signatures pubkey
  ∧ pk_UserIds pubkey' = pk_UserIds pubkey
  ∧ pk_UserAttributes pubkey' = pk_UserAttributes pubkey
  ∧ pk_Subkeys pubkey' = pk_Subkeys pubkey
  ∧ pk_State pubkey' = pk_State pubkey
  ∧ pk_Expiration pubkey' = pk_Expiration pubkey.
Proof.
  apply Pubkey_SetPublicKey_ok in Hset as (buf & bitLen & Hser & Hbits & Hsub & ->).
  unfold Pubkey_Fingerprint, Pubkey_KeyId, Pubkey_ShortId, Pubkey_Serialize.
  cbn [pk_Packet pk_BitLen pk_Creation pk_Algorithm pk_RFingerprint pk_Signatures
       pk_UserIds pk_UserAttributes pk_Subkeys pk_State pk_Expiration].
  repeat (split; [first [assumption | reflexivity | apply Reverse_involutive]|]);
    try reflexivity.
  split; [|repeat split].
  intros Hlen.
  rewrite !slice_to_Some by (rewrite length_Reverse; lia). cbn [fmap option_fmap option_map].
  rewrite !Reverse_prefix_Reverse by lia. split; reflexivity.
Qed.

(** X9.  The same for [Subkey.SetPublicKey(pk)], which succeeds only on
    a subkey packet and leaves the subkey's signatures, state,
    expiration and back-reference untouched. *)
Theorem Subkey_SetPublicKey_stores (subkey subkey' : Subkey) (pk : packet_PublicKey)
    (Hset : Subkey_SetPublicKey subkey pk = (subkey', None)) :
  pkt_IsSubkey pk = true
  ∧ PublicKey_Serialize pk = inr (sub_Packet subkey')
  ∧ PublicKey_BitLength pk = inr (sub_BitLen subkey')
  ∧ sub_Creation subkey' = pkt_CreationTime pk
  ∧ sub_Algorithm subkey' = pkt_PubKeyAlgo pk
  ∧ Subkey_Fingerprint subkey' = Fingerprint pk
  ∧ ((16 ≤ String.length (Fingerprint pk))%nat →
     Subkey_KeyId subkey' = Some (last_chars 16 (Fingerprint pk))
     ∧ Subkey_ShortId subkey' = Some (last_chars 8 (Fingerprint pk)))
  ∧ sub_Signatures subkey' = sub_Signatures subkey
  ∧ sub_State subkey' = sub_State subkey
  ∧ sub_Expiration subkey' = sub_Expiration subkey
  ∧ sub_PubkeyRFP subkey' = sub_PubkeyRFP subkey.
Proof.
  apply Subkey_SetPublicKey_ok in Hset as (buf & bitLen & Hser & Hbits & Hsub & ->).
  unfold Subkey_Fingerprint, Subkey_KeyId, Subkey_ShortId.
  cbn [sub_Packet sub_BitLen sub_Creation sub_Algorithm sub_RFingerprint
       sub_Signatures sub_State sub_Expiration sub_PubkeyRFP].
  repeat (split; [first [assumption | reflexivity | apply Reverse_involutive]|]);
    try reflexivity.
  split; [|repeat split].
  intros Hlen.
  rewrite !slice_to_Some by (rewrite length_Reverse; lia). cbn [fmap option_fmap option_map].
  rewrite !Reverse_prefix_Reverse by lia. split; reflexivity.
Qed.

(** X10.  The last packet set wins: setting [pk2] on a key that was
    set with [pk1] gives the key that setting [pk2] alone gives, and
    setting the same packet again changes nothing. *)
Theorem SetPublicKey_last_wins (pubkey p1 p2 : Pubkey) (subkey s1 s2 : Subkey)
    (pk1 pk2 : packet_PublicKey) :
  (Pubkey_SetPublicKey pubkey pk1 = (p1, None) →
   Pubkey_SetPublicKey p1 pk2 = (p2, None) →
   Pubkey_SetPublicKey pubkey pk2 = (p2, None)
   ∧ Pubkey_SetPublicKey p2 pk2 = (p2, None))
  ∧ (Subkey_SetPublicKey subkey pk1 = (s1, None) →
     Subkey_SetPublicKey s1 pk2 = (s2, None) →
     Subkey_SetPublicKey subkey pk2 = (s2, None)
     ∧ Subkey_SetPublicKey s2 pk2 = (s2, None)).
Proof.
  split.
  - intros (b1 & n1 & _ & _ & _ & ->)%Pubkey_SetPublicKey_ok
           (b2 & n2 & Hser & Hbits & Hsub & ->)%Pubkey_SetPublicKey_ok.
    unfold Pubkey_SetPublicKey. rewrite Hser, Hbits, Hsub. split; reflexivity.
  - intros (b1 & n1 & _ & _ & _ & ->)%Subkey_SetPublicKey_ok
           (b2 & n2 & Hser & Hbits & Hsub & ->)%Subkey_SetPublicKey_ok.
    unfold Subkey_SetPublicKey. rewrite Hser, Hbits, Hsub. split; reflexivity.
Qed.

End SetPublicKey.

Lemma Pubkey_SetPublicKey_stores_witness :
  let pk := mkPublicKey 1000 1 false
              [Byte.x01; Byte.x02; Byte.x03; Byte.x04; Byte.x05; Byte.x06; Byte.x07; Byte.x08] in
  ∃ pubkey',
    Pubkey_SetPublicKey (H:=ex_lib) ex_A pk = (pubkey', None)
    ∧ Pubkey_Fingerprint pubkey' = "0102030405060708"%string
    ∧ Pubkey_KeyId pubkey' = Some "0102030405060708"%string
    ∧ Pubkey_ShortId pubkey' = Some "05060708"%string
    ∧ pk_BitLen pubkey' = 64
    ∧ pk_UserIds pubkey' = pk_UserIds ex_A.
Proof.
  intros pk. eexists. split; [reflexivity|].
  destruct (Pubkey_SetPublicKey_stores (H:=ex_lib) ex_A _ pk eq_refl)
    as (_ & _ & _ & Hbits & _ & _ & Hfp & Hids & _ & Huids & _).
  destruct Hids as [Hk Hs]; [vm_compute; lia|].
  split; [exact Hfp|]. split; [exact Hk|]. split; [exact Hs|].
  split; [reflexivity | exact Huids].
Defined.

Lemma Subkey_SetPublicKey_stores_witness :
  let pk := mkPublicKey 1000 16 true
              [Byte.x01; Byte.x02; Byte.x03; Byte.x04; Byte.x05; Byte.x06; Byte.x07; Byte.x08] in
  ∃ subkey',
    Subkey_SetPublicKey (H:=ex_lib) (ex_subkey "k1" [ex_sig "b1" 0x18]) pk = (subkey', None)
    ∧ Subkey_Fingerprint subkey' = "0102030405060708"%string
    ∧ Subkey_ShortId subkey' = Some "05060708"%string
    ∧ sub_Algorithm subkey' = 16
    ∧ sub_Signatures subkey' = [ex_sig "b1" 0x18].
Proof.
  intros pk. eexists. split; [reflexivity|].
  destruct (Subkey_SetPublicKey_stores (H:=ex_lib) (ex_subkey "k1" [ex_sig "b1" 0x18]) _ pk eq_refl)
    as (_ & _ & _ & _ & Halg & Hfp & Hids & Hsigs & _).
  destruct Hids as [_ Hs]; [vm_compute; lia|].
  split; [exact Hfp|]. split; [exact Hs|]. split; [exact Halg | exact Hsigs].
Defined.

Lemma SetPublicKey_last_wins_witness :
  let pk1 := mkPublicKey 1000 1 false [Byte.x01; Byte.x02] in
  let pk2 := mkPublicKey 2000 17 false [Byte.x03; Byte.x04; Byte.x05] in
  ∃ p1 p2,
    Pubkey_SetPublicKey (H:=ex_lib) ex_A pk1 = (p1, None)
    ∧ Pubkey_SetPublicKey (H:=ex_lib) p1 pk2 = (p2, None)
    ∧ Pubkey_SetPublicKey (H:=ex_lib) ex_A pk2 = (p2, None)
    ∧ Pubkey_SetPublicKey (H:=ex_lib) p2 pk2 = (p2, None).
Proof.
  intros pk1 pk2.
  pose (p1 := fst (Pubkey_SetPublicKey (H:=ex_lib) ex_A pk1)).
  pose (p2 := fst (Pubkey_SetPublicKey (H:=ex_lib) p1 pk2)).
  exists p1, p2.
  split; [reflexivity|]. split; [reflexivity|].
  destruct (SetPublicKey_last_wins (H:=ex_lib) ex_A p1 p2 (ex_subkey "k1" [])
              (ex_subkey "k1" []) (ex_subkey "k1" []) pk1 pk2) as [Hpk _].
  exact (Hpk eq_refl eq_refl).
Defined.

(** ** The issuer key id *)

Lemma Z_of_byte_of_Z (z : Z) : Z.of_N (Byte.to_N (byte_of_Z z)) = z mod 256.
Proof.
  unfold byte_of_Z. change 255 with (Z.ones 8). rewrite Z.land_ones by lia.
  change (2 ^ 8) with 256.
  assert (Hz : 0 ≤ z mod 256 < 256) by (apply Z.mod_pos_bound; lia).
  destruct (Byte.of_N (Z.to_N (z mod 256))) as [b|] eqn:E.
  - apply Byte.to_of_N in E. change (default Byte.x00 (Some b)) with b.
    rewrite E. lia.
  - apply Byte.of_N_None_iff in E. lia.
Qed.

Lemma testbit_byte_at (v k n : Z) :
  0 ≤ k → 0 ≤ n →
  Z.testbit (Z.shiftl (Z.shiftr v k mod 256) k) n
  = (k <=? n) && (n <? k + 8) && Z.testbit v n.
Proof.
  intros Hk Hn. rewrite Z.shiftl_spec by lia.
  destruct (Z.leb_spec k n) as [Hkn|Hkn].
  - change 256 with (2 ^ 8). rewrite Z.testbit_mod_pow2, Z.shiftr_spec by lia.
    replace (n - k + k) with n by lia.
    destruct (Z.ltb_spec (n - k) 8), (Z.ltb_spec n (k + 8)); try lia; reflexivity.
  - now rewrite Z.testbit_neg_r by lia.
Qed.

Lemma BigEndian_Uint64_PutUint64 (v : Z) :
  BigEndian_Uint64 (BigEndian_PutUint64 v) = Some (v mod 2 ^ 64).
Proof.
  unfold BigEndian_PutUint64, BigEndian_Uint64. f_equal.
  rewrite !Z_of_byte_of_Z.
  apply Z.bits_inj'. intros n Hn.
  rewrite !Z.lor_spec, !testbit_byte_at by lia.
  change 256 with (2 ^ 8). rewrite !Z.testbit_mod_pow2 by lia.
  destruct (Z.testbit v n); [|now rewrite !andb_false_r].
  rewrite !andb_true_r.
  assert (Hcases : n < 8 ∨ 8 ≤ n < 16 ∨ 16 ≤ n < 24 ∨ 24 ≤ n < 32 ∨ 32 ≤ n < 40
                   ∨ 40 ≤ n < 48 ∨ 48 ≤ n < 56 ∨ 56 ≤ n < 64 ∨ 64 ≤ n) by lia.
  repeat match goal with
         | |- context [(?a <=? ?b)%Z] =>
           first [rewrite (proj2 (Z.leb_le a b)) by lia
                 | rewrite (proj2 (Z.leb_gt a b)) by lia
                 | fail 1]
         | |- context [(?a <? ?b)%Z] =>
           first [rewrite (proj2 (Z.ltb_lt a b)) by lia
                 | rewrite (proj2 (Z.ltb_ge a b)) by lia
                 | fail 1]
         | H : _ ∨ _ |- _ => destruct H as [H|H]
         end; reflexivity.
Qed.

Lemma hex_decode_byte (v : Byte.byte) :
  match fromHexChar (hex_char (N.shiftr (Byte.to_N v) 4)),
        fromHexChar (hex_char (N.land (Byte.to_N v) 15)) with
  | Some h, Some l => Byte.of_N (N.lor (N.shiftl h 4) l) = Some v
  | _, _ => False
  end.
Proof. destruct v; vm_compute; reflexivity. Qed.

Lemma hex_DecodeString_EncodeToString (src : list Byte.byte) :
  hex_DecodeString (hex_EncodeToString src) = inr src.
Proof.
  induction src as [|v src IH]; [reflexivity|].
  change (hex_EncodeToString (v :: src))
    with (String (hex_char (N.shiftr (Byte.to_N v) 4))
            (String (hex_char (N.land (Byte.to_N v) 15)) (hex_EncodeToString src))).
  cbn [hex_DecodeString]. assert (Hv := hex_decode_byte v).
  destruct (fromHexChar (hex_char (N.shiftr (Byte.to_N v) 4))) as [h|]; [|contradiction].
  destruct (fromHexChar (hex_char (N.land (Byte.to_N v) 15))) as [l|]; [|contradiction].
  now rewrite Hv, IH.
Qed.

(** X11.  After a successful [setPacketV4] the view [IssuerKeyId()] is
    the packet's issuer key id written as 16 lower-case hex characters,
    most significant byte first: decoding it with [hex.DecodeString]
    and [binary.BigEndian.Uint64] gives the key id back. *)
Theorem IssuerKeyId_reads_back `{PacketLib} (sig sig' : Signature)
    (s : packet_Signature) (keyid : Z)
    (Hset : Signature_setPacketV4 sig s = (sig', None))
    (Hid : pkt_IssuerKeyId s = Some keyid) :
  Signature_IssuerKeyId sig' = hex_EncodeToString (BigEndian_PutUint64 keyid)
  ∧ String.length (Signature_IssuerKeyId sig') = 16%nat
  ∧ ∃ bytes, hex_DecodeString (Signature_IssuerKeyId sig') = inr bytes
             ∧ BigEndian_Uint64 bytes = Some (keyid mod 2 ^ 64).
Proof.
  apply Signature_setPacketV4_ok in Hset as (buf & keyid' & _ & Hid' & _ & Hr).
  assert (keyid' = keyid) as -> by congruence.
  unfold Signature_IssuerKeyId. rewrite Hr, Reverse_involutive.
  split; [reflexivity|]. split; [now rewrite length_hex_EncodeToString|].
  exists (BigEndian_PutUint64 keyid).
  split; [apply hex_DecodeString_EncodeToString | apply BigEndian_Uint64_PutUint64].
Qed.

Lemma IssuerKeyId_reads_back_witness :
  let s := mkPacketSignature 0x13 1000 (Some 0x0123456789abcdef) None [Byte.x04] in
  ∃ sig', Signature_setPacketV4 (H:=ex_lib) (ex_sig "d1" 0x10) s = (sig', None)
    ∧ Signature_IssuerKeyId sig' = "0123456789abcdef"%string
    ∧ ∃ bytes, hex_DecodeString (Signature_IssuerKeyId sig') = inr bytes
               ∧ BigEndian_Uint64 bytes = Some 0x0123456789abcdef.
Proof.
  intros s.
  exists (fst (Signature_setPacketV4 (H:=ex_lib) (ex_sig "d1" 0x10) s)).
  split; [vm_compute; reflexivity|].
  destruct (IssuerKeyId_reads_back (H:=ex_lib) (ex_sig "d1" 0x10)
              (fst (Signature_setPacketV4 (H:=ex_lib) (ex_sig "d1" 0x10) s)) s
              0x0123456789abcdef) as (Hview & _ & bytes & Hdec & Hnum);
    [vm_compute; reflexivity | reflexivity |].
  split; [rewrite Hview; vm_compute; reflexivity|].
  exists bytes. split; [exact Hdec | exact Hnum].
Defined.

(** ** Setting a signature packet twice *)

Section SetSignature.
Context `{PacketLib}.

Lemma Signature_setPacketV4_record sig s sig' :
  Signature_setPacketV4 sig s = (sig', None) →
  ∃ buf keyid,
    Signature_Serialize s = inr buf ∧ pkt_IssuerKeyId s = Some keyid
    ∧ sig' =
      {| sig_ScopedDigest := sig_ScopedDigest sig;
         sig_Creation := pkt_SigCreationTime s;
         sig_Expiration :=
           match pkt_SigLifetimeSecs s with
           | Some secs => pkt_SigCreationTime s + secs
           | None => sig_Expiration sig
           end;
         sig_State := sig_State sig;
         sig_Packet := buf;
         sig_SigType := pkt_SigType s;
         sig_RIssuerKeyId := Reverse (hex_EncodeToString (BigEndian_PutUint64 keyid));
         sig_RIssuerFingerprint := sig_RIssuerFingerprint sig;
         sig_RevsigDigest := sig_RevsigDigest sig;
         sig_Revsig := sig_Revsig sig |}.
Proof.
  unfold Signature_setPacketV4.
  destruct (Signature_Serialize s) as [e|buf]; [congruence|].
  destruct (pkt_IssuerKeyId s) as [keyid|]; [|congruence].
  intros E. apply (f_equal fst) in E. cbn [fst] in E. subst sig'.
  exists buf, keyid. auto.
Qed.


End SetSignature.


(** ** The images of a user attribute *)

(** X13.  Every buffer [GetJpegData] returns is non-empty, there are no
    more buffers than subpackets, and each buffer is what follows the
    first 16 bytes of the content of an image subpacket of the
    attribute. *)
Theorem GetJpegData_buffers `{PacketLib} (uat : UserAttribute) :
  Forall (λ img, img ≠ []) (UserAttribute_GetJpegData uat)
  ∧ (∀ op subpackets,
       UserAttribute_GetPacket uat = inr op →
       packet_OpaqueSubpackets (op_Contents op) = inr subpackets →
       (length (UserAttribute_GetJpegData uat) ≤ length subpackets)%nat
       ∧ Forall (λ img, ∃ sp, sp ∈ subpackets ∧ sp_SubType sp = ImageSubType
                          ∧ sp_Contents sp = take 16 (sp_Contents sp) ++ img
                          ∧ length (sp_Contents sp) = (16 + length img)%nat)
           (UserAttribute_GetJpegData uat)).
Proof.
  unfold UserAttribute_GetJpegData.
  destruct (UserAttribute_GetPacket uat) as [e|op];
    [split; [apply Forall_nil_2 | intros ? ? [=]]|].
  destruct (packet_OpaqueSubpackets (op_Contents op)) as [e|sps] eqn:Hsps.
  { split; [apply Forall_nil_2|]. intros op' sps' [= <-] Hs. congruence. }
  rewrite GetJpegData_loop. cbn [app].
  assert (Himg : Forall (λ img, ∃ sp, sp ∈ sps ∧ sp_SubType sp = ImageSubType
                           ∧ sp_Contents sp = take 16 (sp_Contents sp) ++ img
                           ∧ length (sp_Contents sp) = (16 + length img)%nat
                           ∧ img ≠ [])
                   ((λ sp, drop ImageSubOffset (sp_Contents sp)) <$> filter is_image sps)).
  { apply Forall_fmap, Forall_forall. intros sp [[Ht Hl] Hin]%list_elem_of_filter.
    exists sp. unfold ImageSubOffset in *. cbn.
    split; [exact Hin|]. split; [exact Ht|].
    split; [now rewrite take_drop|]. split; [rewrite length_drop; lia|].
    intros Hnil. apply (f_equal length) in Hnil. rewrite length_drop in Hnil.
    cbn in Hnil. lia. }
  split.
  - eapply Forall_impl; [exact Himg|]. cbn. intros img (sp & _ & _ & _ & _ & Hne).
    exact Hne.
  - intros op' sps' [= <-] Hs. rewrite Hsps in Hs. injection Hs as <-. split.
    + rewrite length_fmap. apply length_filter.
    + eapply Forall_impl; [exact Himg|]. cbn.
      intros img (sp & Hin & Ht & Hc & Hl & _). eauto.
Qed.

Lemma GetJpegData_buffers_witness :
  Forall (λ img, img ≠ []) (UserAttribute_GetJpegData (H:=ex_lib) (ex_uat "a1" ex_uat_packet []))
  ∧ (length (UserAttribute_GetJpegData (H:=ex_lib) (ex_uat "a1" ex_uat_packet [])) ≤ 3)%nat.
Proof.
  destruct (GetJpegData_buffers (H:=ex_lib) (ex_uat "a1" ex_uat_packet []))
    as [Hne Hcount].
  split; [exact Hne|].
  exact (proj1 (Hcount (mkOpaquePacket 17 (tail ex_uat_packet))
                  [mkOpaqueSubpacket 1 (replicate 16 Byte.x00 ++ [Byte.xff; Byte.xd8]);
                   mkOpaqueSubpacket 1 [Byte.xaa; Byte.xbb];
                   mkOpaqueSubpacket 2 [Byte.xcc; Byte.xdd]] eq_refl eq_refl)).
Defined.

(** ** Setting a user id or user attribute packet *)

Section SetUserPackets.
Context `{PacketLib}.



End SetUserPackets.

(** ** Round trips through the stored bytes *)

Section ReadBack.
Context `{PacketLib}.

(** X17.  When the library reads the serialization of a public key back
    as a public key with the same serialization, [Pubkey.GetPacket]
    after a successful [Pubkey.SetPacket(p)] returns, with a nil error,
    a packet that serializes to the bytes of [p], which are the bytes
    the Pubkey stores. *)
Theorem Pubkey_reads_back (pubkey pubkey' : Pubkey) (p : packet_Packet)
    (Hread : ∀ pk buf, PublicKey_Serialize pk = inr buf →
               ∃ pk', packet_Read buf = inr (P_PublicKey pk')
                      ∧ PublicKey_Serialize pk' = inr buf)
    (Hset : Pubkey_SetPacket pubkey p = (pubkey', None)) :
  ∃ q, Pubkey_GetPacket pubkey' = Some (inr q)
       ∧ Packet_Serialize q = Packet_Serialize p
       ∧ Packet_Serialize p = inr (pk_Packet pubkey').
Proof.
  unfold Pubkey_SetPacket in Hset. destruct p as [pk|s|u|op]; try discriminate.
  apply Pubkey_SetPublicKey_ok in Hset as (buf & bitLen & Hser & _ & _ & ->).
  destruct (Hread pk buf Hser) as (pk' & Hq & Hback).
  exists (P_PublicKey pk'). unfold Pubkey_GetPacket, Pubkey_GetPublicKey.
  cbn [pk_Packet Packet_Serialize]. rewrite Hq. cbn.
  split; [reflexivity|]. split; congruence.
Qed.

(** X18.  When the library reads a serialized signature back as a
    packet with the same serialization, [Signature.GetPacket] after a
    successful [Signature.SetPacket(p)] returns a packet that
    serializes to the bytes of [p], which are the bytes the Signature
    stores. *)
Theorem Signature_reads_back (sig sig' : Signature) (p : packet_Packet)
    (Hread : ∀ s buf, Signature_Serialize s = inr buf →
               ∃ q, packet_Read buf = inr q ∧ Packet_Serialize q = inr buf)
    (Hset : Signature_SetPacket sig p = (sig', None)) :
  ∃ q, Signature_GetPacket sig' = inr q
       ∧ Packet_Serialize q = Packet_Serialize p
       ∧ Packet_Serialize p = inr (sig_Packet sig').
Proof.
  unfold Signature_SetPacket, Signature_SetSignature in Hset.
  destruct p as [pk|s|u|op]; try discriminate.
  apply Signature_setPacketV4_ok in Hset as (buf & keyid & Hser & _ & Hpkt & _).
  destruct (Hread s buf Hser) as (q & Hq & Hback).
  exists q. unfold Signature_GetPacket, Signature_GetSignature.
  rewrite Hpkt. cbn [Packet_Serialize]. split; [exact Hq|]. split; congruence.
Qed.

(** X19.  When the opaque reader reads a serialized opaque packet back
    as a packet with the same serialization, [UserAttribute.GetPacket]
    after a successful [UserAttribute.SetPacket(p)] returns a packet
    that serializes to the bytes of [p], which are the bytes the
    UserAttribute stores. *)
Theorem UserAttribute_reads_back (uat uat' : UserAttribute) (p : packet_Packet)
    (Hread : ∀ op buf, OpaquePacket_Serialize op = inr buf →
               ∃ oq, OpaqueReader_Next buf = inr oq
                     ∧ OpaquePacket_Serialize oq = inr buf)
    (Hset : UserAttribute_SetPacket uat p = (uat', None)) :
  ∃ oq, UserAttribute_GetPacket uat' = inr oq
        ∧ Packet_Serialize (P_Opaque oq) = Packet_Serialize p
        ∧ Packet_Serialize p = inr (uat_Packet uat').
Proof.
  unfold UserAttribute_SetPacket, UserAttribute_SetOpaquePacket in Hset.
  destruct p as [pk|s|u|op]; try discriminate.
  destruct (OpaquePacket_Serialize op) as [e|buf] eqn:Hser; [discriminate|].
  apply (f_equal fst) in Hset. cbn [fst] in Hset. subst uat'.
  destruct (Hread op buf Hser) as (oq & Hq & Hback).
  exists oq. unfold UserAttribute_GetPacket, UserAttribute_GetOpaquePacket.
  cbn [uat_Packet Packet_Serialize]. split; [exact Hq|]. split; congruence.
Qed.

End ReadBack.

(** The small instance reads its own serializations back. *)
Lemma byte_of_Z_to_N (b : Byte.byte) : byte_of_Z (Z.of_N (Byte.to_N b)) = b.
Proof. destruct b; reflexivity. Qed.

Lemma ex_lib_reads_PublicKey (pk : packet_PublicKey) (buf : list Byte.byte) :
  ex_PublicKey_Serialize pk = inr buf →
  ∃ pk', ex_packet_Read buf = inr (P_PublicKey pk')
         ∧ ex_PublicKey_Serialize pk' = inr buf.
Proof.
  unfold ex_PublicKey_Serialize. intros [= <-].
  exists (mkPublicKey 0 (Z.of_N (Byte.to_N (byte_of_Z (pkt_PubKeyAlgo pk))))
            (pkt_IsSubkey pk) (pkt_KeyMaterial pk)).
  cbn [pkt_IsSubkey pkt_PubKeyAlgo pkt_KeyMaterial]. rewrite byte_of_Z_to_N.
  split; [|reflexivity].
  generalize (byte_of_Z (pkt_PubKeyAlgo pk)). intros b.
  destruct (pkt_IsSubkey pk); reflexivity.
Qed.

Lemma ex_lib_reads_Signature (s : packet_Signature) (buf : list Byte.byte) :
  ex_Signature_Serialize s = inr buf →
  ∃ q, ex_packet_Read buf = inr q ∧ Packet_Serialize (H:=ex_lib) q = inr buf.
Proof.
  unfold ex_Signature_Serialize. intros [= <-].
  exists (P_Signature (mkPacketSignature
            (Z.of_N (Byte.to_N (byte_of_Z (pkt_SigType s)))) 0 None None (pkt_SigBody s))).
  split.
  - generalize (byte_of_Z (pkt_SigType s)). intros b. reflexivity.
  - cbn [Packet_Serialize Signature_Serialize ex_lib]. unfold ex_Signature_Serialize.
    cbn [pkt_SigType pkt_SigBody]. now rewrite byte_of_Z_to_N.
Qed.

Lemma ex_lib_reads_Opaque (op : packet_OpaquePacket) (buf : list Byte.byte) :
  ex_OpaquePacket_Serialize op = inr buf →
  ∃ oq, ex_OpaqueReader_Next buf = inr oq ∧ ex_OpaquePacket_Serialize oq = inr buf.
Proof.
  unfold ex_OpaquePacket_Serialize. intros [= <-].
  exists (mkOpaquePacket (Z.of_N (Byte.to_N (byte_of_Z (op_Tag op)))) (op_Contents op)).
  split; [reflexivity|]. cbn [op_Tag op_Contents]. now rewrite byte_of_Z_to_N.
Qed.

Lemma Pubkey_reads_back_witness :
  let pk := mkPublicKey 1000 1 false [Byte.x01; Byte.x02] in
  ∃ pubkey' q,
    Pubkey_SetPacket (H:=ex_lib) ex_A (P_PublicKey pk) = (pubkey', None)
    ∧ Pubkey_GetPacket (H:=ex_lib) pubkey' = Some (inr q)
    ∧ Packet_Serialize (H:=ex_lib) q = inr [Byte.x06; Byte.x01; Byte.x01; Byte.x02].
Proof.
  intros pk.
  pose (pubkey' := fst (Pubkey_SetPacket (H:=ex_lib) ex_A (P_PublicKey pk))).
  destruct (Pubkey_reads_back (H:=ex_lib) ex_A pubkey' (P_PublicKey pk)
              ex_lib_reads_PublicKey eq_refl) as (q & Hget & Hser & _).
  exists pubkey', q. split; [reflexivity|]. split; [exact Hget|].
  rewrite Hser. reflexivity.
Defined.

Lemma Signature_reads_back_witness :
  let s := mkPacketSignature 0x13 1000 (Some 0x0123456789abcdef) None [Byte.x04] in
  ∃ sig' q,
    Signature_SetPacket (H:=ex_lib) (ex_sig "d1" 0x10) (P_Signature s) = (sig', None)
    ∧ Signature_GetPacket (H:=ex_lib) sig' = inr q
    ∧ Packet_Serialize (H:=ex_lib) q = inr [Byte.x02; Byte.x13; Byte.x04].
Proof.
  intros s.
  pose (sig' := fst (Signature_SetPacket (H:=ex_lib) (ex_sig "d1" 0x10) (P_Signature s))).
  assert (Hset : Signature_SetPacket (H:=ex_lib) (ex_sig "d1" 0x10) (P_Signature s)
                 = (sig', None)) by (vm_compute; reflexivity).
  destruct (Signature_reads_back (H:=ex_lib) (ex_sig "d1" 0x10) sig' (P_Signature s)
              ex_lib_reads_Signature Hset) as (q & Hget & Hser & _).
  exists sig', q. split; [exact Hset|]. split; [exact Hget|].
  rewrite Hser. reflexivity.
Defined.

Lemma UserAttribute_reads_back_witness :
  let op := mkOpaquePacket 17 (tail ex_uat_packet) in
  ∃ uat' oq,
    UserAttribute_SetPacket (H:=ex_lib) (ex_uat "a1" [] []) (P_Opaque op) = (uat', None)
    ∧ UserAttribute_GetPacket (H:=ex_lib) uat' = inr oq
    ∧ Packet_Serialize (H:=ex_lib) (P_Opaque oq) = inr ex_uat_packet
    ∧ length (UserAttribute_GetJpegData (H:=ex_lib) uat') = 1%nat.
Proof.
  intros op.
  pose (uat' := fst (UserAttribute_SetPacket (H:=ex_lib) (ex_uat "a1" [] []) (P_Opaque op))).
  destruct (UserAttribute_reads_back (H:=ex_lib) (ex_uat "a1" [] []) uat' (P_Opaque op)
              ex_lib_reads_Opaque eq_refl) as (oq & Hget & Hser & _).
  exists uat', oq. split; [reflexivity|]. split; [exact Hget|].
  split; [rewrite Hser; reflexivity | reflexivity].
Defined.
